(** * DAGLongestPath: the longest path of a DAG in terms of node weights

    A shallow embedding of [dag_longest_path.py] (class [DAGLongestPath]) and
    the verification of its specification.

    Modelling choices.
    - Labels are any type with decidable equality that can be hashed
      ([Countable]); the dictionaries of the class are [gmap]s and its sets
      are [gset]s.
    - Weights are integers ([Z]).
    - The object is a record [state]; every method is a function from the
      state before the call to a result [res] that carries the state after
      the call, also when the call raises.
    - [set.pop()] returns an arbitrary element.  The loop of [longest_path]
      therefore takes the sequence of labels that the successive [pop()]
      calls return; a sequence that the set could not have produced yields
      [OffSchedule].  All statements quantify over every such sequence. *)

From Stdlib Require Import ZArith Lia.
From stdpp Require Import gmap sets list relations.

#[local] Set Warnings "-clear-no-such-hyp".

(** ** Exceptions *)

Inductive endpoint := Source | Target.

(** The two messages of the [ValueError]s raised by the class:
    ["weight cannot be negative"] and ["source {} not a node"] /
    ["target {} not a node"]. *)
Inductive message (L : Type) :=
| WeightNegative
| NotANode (e : endpoint) (label : L).

Inductive exn (L : Type) :=
| ValueError (m : message L)
| KeyError (key : L)
| TypeError.

Arguments WeightNegative {L}.
Arguments NotANode {L} e label.
Arguments ValueError {L} m.
Arguments KeyError {L} key.
Arguments TypeError {L}.

(** The names the specification gives to the two [ValueError]s. *)
Definition InvalidWeight {L} : exn L := ValueError WeightNegative.
Definition UnknownNode {L} (e : endpoint) (label : L) : exn L :=
  ValueError (NotANode e label).

Section Engine.
Context {L : Type} `{!EqDecision L, !Countable L}.

(** ** The object *)

Record state := State {
  nodes : gmap L Z;
  edges : gmap L (gset L);
  rev_edges : gmap L (gset L);
  unseen_sources : gset L;
  longest_in_weight : gmap L Z;
  longest_in_route : gmap L (list L);
  longest_route : option (list L);
  longest_route_weight : option Z
}.

Inductive res (A : Type) :=
| Ret (a : A) (s : state)
| Raise (e : exn L) (s : state)
| OffSchedule.

Arguments Ret {A} a s.
Arguments Raise {A} e s.
Arguments OffSchedule {A}.

(** [__init__] *)
Definition init : state :=
  {| nodes := ∅; edges := ∅; rev_edges := ∅; unseen_sources := ∅;
     longest_in_weight := ∅; longest_in_route := ∅;
     longest_route := None; longest_route_weight := None |}.

(** ** Building the graph *)

Definition add_node (label : L) (weight : Z) (s : state) : res unit :=
  if (weight <? 0)%Z then Raise InvalidWeight s
  else Ret tt
    {| nodes := <[label := weight]> (nodes s);
       edges := <[label := ∅]> (edges s);
       rev_edges := <[label := ∅]> (rev_edges s);
       unseen_sources := {[label]} ∪ unseen_sources s;
       longest_in_weight := longest_in_weight s;
       longest_in_route := longest_in_route s;
       longest_route := longest_route s;
       longest_route_weight := longest_route_weight s |}.

Definition add_edge (source target : L) (s : state) : res unit :=
  match nodes s !! source with
  | None => Raise (UnknownNode Source source) s
  | Some _ =>
  match nodes s !! target with
  | None => Raise (UnknownNode Target target) s
  | Some _ =>
  match edges s !! source with
  | None => Raise (KeyError source) s
  | Some targets =>
  let s1 :=
    {| nodes := nodes s;
       edges := <[source := {[target]} ∪ targets]> (edges s);
       rev_edges := rev_edges s;
       unseen_sources := unseen_sources s;
       longest_in_weight := longest_in_weight s;
       longest_in_route := longest_in_route s;
       longest_route := longest_route s;
       longest_route_weight := longest_route_weight s |} in
  match rev_edges s1 !! target with
  | None => Raise (KeyError target) s1
  | Some sources =>
    Ret tt
    {| nodes := nodes s1;
       edges := edges s1;
       rev_edges := <[target := {[source]} ∪ sources]> (rev_edges s1);
       unseen_sources := unseen_sources s1 ∖ {[target]};
       longest_in_weight := longest_in_weight s1;
       longest_in_route := longest_in_route s1;
       longest_route := longest_route s1;
       longest_route_weight := longest_route_weight s1 |}
  end end end end.

(** A sequence of construction calls. *)
Inductive call :=
| AddNode (label : L) (weight : Z)
| AddEdge (source target : L).

Definition exec (c : call) : state → res unit :=
  match c with
  | AddNode label weight => add_node label weight
  | AddEdge source target => add_edge source target
  end.

Fixpoint exec_all (cs : list call) (s : state) : res unit :=
  match cs with
  | [] => Ret tt s
  | c :: cs' =>
    match exec c s with
    | Ret _ s' => exec_all cs' s'
    | r => r
    end
  end.

(** The object obtained from a fresh one by the calls [cs]. *)
Definition build (cs : list call) : res unit := exec_all cs init.

(** ** Traversal *)

(** A [for x in ...] loop whose body may raise. *)
Fixpoint for_each (body : L → state → res unit) (l : list L) (s : state)
  : res unit :=
  match l with
  | [] => Ret tt s
  | x :: l' =>
    match body x s with
    | Ret _ s' => for_each body l' s'
    | r => r
    end
  end.

(** Body of the loop of [__del_edges_from]. *)
Definition discard_rev (source target : L) (s : state) : res unit :=
  match rev_edges s !! target with
  | None => Raise (KeyError target) s
  | Some sources =>
    let sources' := sources ∖ {[source]} in
    let rev' := <[target := sources']> (rev_edges s) in
    Ret tt
    {| nodes := nodes s;
       edges := edges s;
       rev_edges := rev';
       unseen_sources :=
         if decide (size sources' = 0%nat)
         then {[target]} ∪ unseen_sources s else unseen_sources s;
       longest_in_weight := longest_in_weight s;
       longest_in_route := longest_in_route s;
       longest_route := longest_route s;
       longest_route_weight := longest_route_weight s |}
  end.

(** [__del_edges_from] *)
Definition del_edges_from (source : L) (s : state) : res unit :=
  match edges s !! source with
  | None => Raise (KeyError source) s
  | Some targets =>
    for_each (discard_rev source) (elements targets)
      {| nodes := nodes s;
         edges := <[source := ∅]> (edges s);
         rev_edges := rev_edges s;
         unseen_sources := unseen_sources s;
         longest_in_weight := longest_in_weight s;
         longest_in_route := longest_in_route s;
         longest_route := longest_route s;
         longest_route_weight := longest_route_weight s |}
  end.

(** Body of the relaxation loop of [longest_path]. *)
Definition relax (new_weight : Z) (new_route : list L) (s : state) (target : L)
  : state :=
  if (default 0%Z (longest_in_weight s !! target) <? new_weight)%Z then
    {| nodes := nodes s;
       edges := edges s;
       rev_edges := rev_edges s;
       unseen_sources := unseen_sources s;
       longest_in_weight := <[target := new_weight]> (longest_in_weight s);
       longest_in_route := <[target := new_route]> (longest_in_route s);
       longest_route := longest_route s;
       longest_route_weight := longest_route_weight s |}
  else s.

Definition set_longest (route : list L) (weight : Z) (s : state) : state :=
  {| nodes := nodes s;
     edges := edges s;
     rev_edges := rev_edges s;
     unseen_sources := unseen_sources s;
     longest_in_weight := longest_in_weight s;
     longest_in_route := longest_in_route s;
     longest_route := Some route;
     longest_route_weight := Some weight |}.

(** [unseen_sources.pop()] returning [sourcenode]. *)
Definition popped (sourcenode : L) (s : state) : state :=
  {| nodes := nodes s;
     edges := edges s;
     rev_edges := rev_edges s;
     unseen_sources := unseen_sources s ∖ {[sourcenode]};
     longest_in_weight := longest_in_weight s;
     longest_in_route := longest_in_route s;
     longest_route := longest_route s;
     longest_route_weight := longest_route_weight s |}.

(** What the finalised node contributes. *)
Definition new_weight_of (sourcenode : L) (w : Z) (s : state) : Z :=
  (default 0 (longest_in_weight s !! sourcenode) + w)%Z.
Definition new_route_of (sourcenode : L) (s : state) : list L :=
  default [] (longest_in_route s !! sourcenode) ++ [sourcenode].

(** One iteration of the [while] loop of [longest_path], [sourcenode]
    being the label returned by [pop()]. *)
Definition iteration (sourcenode : L) (s0 : state) : res unit :=
  let s := popped sourcenode s0 in
  match nodes s !! sourcenode with
  | None => Raise (KeyError sourcenode) s
  | Some w =>
  let new_weight := new_weight_of sourcenode w s in
  let new_route := new_route_of sourcenode s in
  match edges s !! sourcenode with
  | None => Raise (KeyError sourcenode) s
  | Some targets =>
    if decide (size targets = 0%nat) then
      match longest_route s with
      | None => Ret tt (set_longest new_route new_weight s)
      | Some _ =>
        match longest_route_weight s with
        | None => Raise TypeError s
        | Some best =>
          if (best <? new_weight)%Z
          then Ret tt (set_longest new_route new_weight s)
          else Ret tt s
        end
      end
    else
      del_edges_from sourcenode
        (foldl (relax new_weight new_route) s (elements targets))
  end end.

(** The iterations for a sequence of popped labels. *)
Fixpoint iterate (pops : list L) (s : state) : res unit :=
  match pops with
  | [] => Ret tt s
  | n :: pops' =>
    if decide (n ∈ unseen_sources s) then
      match iteration n s with
      | Ret _ s' => iterate pops' s'
      | r => r
      end
    else OffSchedule
  end.

(** The [while len(self.unseen_sources) > 0] loop: it ends when the set is
    empty. *)
Definition while_loop (pops : list L) (s : state) : res unit :=
  match iterate pops s with
  | Ret _ s' =>
    if decide (size (unseen_sources s') = 0%nat) then Ret tt s'
    else OffSchedule
  | r => r
  end.

Definition longest_path (pops : list L) (s : state)
  : res (option (list L) * option Z) :=
  match while_loop pops s with
  | Ret _ s' => Ret (longest_route s', longest_route_weight s') s'
  | Raise e s' => Raise e s'
  | OffSchedule => OffSchedule
  end.

End Engine.

Arguments state L {_ _}.
Arguments res L {_ _} A.
Arguments Ret {L _ _ A} a s.
Arguments Raise {L _ _ A} e s.
Arguments OffSchedule {L _ _ A}.
Arguments call L : clear implicits.

(** ** The graph an object stands for *)

Section Graph.
Context {L : Type} `{!EqDecision L, !Countable L}.
Implicit Types (s : state L) (a b n : L) (p q : list L) (ts D : gset L).

Definition succs s a : gset L := default ∅ (edges s !! a).
Definition preds s b : gset L := default ∅ (rev_edges s !! b).
Definition weight_of s a : Z := default 0%Z (nodes s !! a).

Definition is_node s a : Prop := a ∈ dom (nodes s).
Definition edge s a b : Prop := b ∈ succs s a.

(** The forward and the reverse view describe the same set of edges. *)
Definition synchronized s : Prop := ∀ a b, b ∈ succs s a ↔ a ∈ preds s b.

Definition acyclic s : Prop := ∀ a, ¬ tc (edge s) a a.

(** A directed path: a non-empty sequence of nodes, consecutive ones joined
    by an edge. *)
Definition path s p : Prop :=
  p ≠ [] ∧ (∀ a, a ∈ p → is_node s a) ∧
  ∀ (i : nat) a b, p !! i = Some a → p !! S i = Some b → edge s a b.

Definition path_weight s p : Z := foldr (λ a acc, weight_of s a + acc)%Z 0%Z p.

(** [w] is the largest weight of a path, or there is no path at all. *)
Definition max_path_weight s (w : option Z) : Prop :=
  match w with
  | Some w =>
    (∃ p, path s p ∧ path_weight s p = w) ∧
    ∀ p, path s p → (path_weight s p ≤ w)%Z
  | None => ∀ p, ¬ path s p
  end.

(** What holds of every object that construction calls have produced. *)
Record constructed s : Prop := Constructed {
  c_edges_dom : dom (edges s) = dom (nodes s);
  c_rev_dom : dom (rev_edges s) = dom (nodes s);
  c_succs : ∀ a b, b ∈ succs s a → is_node s b;
  c_preds : ∀ a b, a ∈ preds s b → is_node s a;
  c_frontier : ∀ a, a ∈ unseen_sources s ↔ rev_edges s !! a = Some ∅;
  c_weights : ∀ a w, nodes s !! a = Some w → (0 ≤ w)%Z;
  c_in_weight : longest_in_weight s = ∅;
  c_in_route : longest_in_route s = ∅;
  c_route : longest_route s = None;
  c_route_weight : longest_route_weight s = None
}.

(** The three dictionaries of the graph store have the same keys. *)
Definition same_keys s : Prop :=
  dom (edges s) = dom (nodes s) ∧ dom (rev_edges s) = dom (nodes s).

(** The states an object can be in: any sequence of successful calls of the
    three public methods. *)
Inductive reachable : state L → Prop :=
| reachable_init : reachable init
| reachable_add_node s label weight s' :
    reachable s → add_node label weight s = Ret tt s' → reachable s'
| reachable_add_edge s source target s' :
    reachable s → add_edge source target s = Ret tt s' → reachable s'
| reachable_longest_path s pops r s' :
    reachable s → longest_path pops s = Ret r s' → reachable s'.

(** The labels that a sequence of calls adds. *)
Definition added_labels (cs : list (call L)) : list L :=
  omap (λ c, match c with AddNode l _ => Some l | AddEdge _ _ => None end) cs.

(** ** What the proofs speak about *)

Local Open Scope Z_scope.

(** The state in which a call ends, when it ends. *)
Definition state_of {A} (r : res L A) : option (state L) :=
  match r with Ret _ s | Raise _ s => Some s | OffSchedule => None end.

(** What no part of the traversal changes: the node store and the keys of
    the two adjacency dictionaries. *)
Definition frame s s' : Prop :=
  nodes s' = nodes s ∧ dom (edges s') = dom (edges s) ∧
  dom (rev_edges s') = dom (rev_edges s).

(** Whether a finalised weight replaces the global best. *)
Definition improves s (new_weight : Z) : bool :=
  match longest_route s, longest_route_weight s with
  | None, _ => true
  | Some _, Some best => (best <? new_weight)
  | Some _, None => false
  end.

(** The effect of one iteration that finalises [n], of weight [w] and with
    outgoing edges to [ts]. *)
Record iteration_post n (w : Z) ts s s' : Prop := IterationPost {
  ip_nodes : nodes s' = nodes s;
  ip_edges : edges s' = <[n := ∅]> (edges s);
  ip_rev_in : ∀ t, t ∈ ts →
    rev_edges s' !! t = (λ ss, ss ∖ {[n]}) <$> rev_edges s !! t;
  ip_rev_out : ∀ t, t ∉ ts → rev_edges s' !! t = rev_edges s !! t;
  ip_unseen : ∀ x, x ∈ unseen_sources s' ↔
    (x ∈ unseen_sources s ∧ x ≠ n) ∨
    (x ∈ ts ∧ ∃ ss, rev_edges s !! x = Some ss ∧ ss ∖ {[n]} = ∅);
  ip_in_new : ∀ t, t ∈ ts →
    default 0 (longest_in_weight s !! t) < new_weight_of n w s →
    longest_in_weight s' !! t = Some (new_weight_of n w s) ∧
    longest_in_route s' !! t = Some (new_route_of n s);
  ip_in_old : ∀ t,
    ¬ (t ∈ ts ∧ default 0 (longest_in_weight s !! t) < new_weight_of n w s) →
    longest_in_weight s' !! t = longest_in_weight s !! t ∧
    longest_in_route s' !! t = longest_in_route s !! t;
  ip_best :
    (longest_route s', longest_route_weight s') =
    if decide (ts = ∅) then
      if improves s (new_weight_of n w s)
      then (Some (new_route_of n s), Some (new_weight_of n w s))
      else (longest_route s, longest_route_weight s)
    else (longest_route s, longest_route_weight s)
}.

(** [s0] is the object when [longest_path] is called; [D] is the set of
    labels finalised so far. *)
Record inv (s0 : state L) D s : Prop := Inv {
  inv_nodes : nodes s = nodes s0;
  inv_edges : ∀ a, edges s !! a =
    if decide (a ∈ D) then (λ _, ∅) <$> edges s0 !! a else edges s0 !! a;
  inv_rev : ∀ b, rev_edges s !! b = (λ ss, ss ∖ D) <$> rev_edges s0 !! b;
  inv_unseen : ∀ a, a ∈ unseen_sources s ↔
    is_node s0 a ∧ (a ∉ D) ∧ preds s0 a ⊆ D;
  inv_done : ∀ a, a ∈ D → is_node s0 a ∧ preds s0 a ⊆ D;
  inv_in_some : ∀ t w, longest_in_weight s !! t = Some w →
    ∃ r a, longest_in_route s !! t = Some r ∧ path s0 r ∧
           path_weight s0 r = w ∧ last r = Some a ∧ edge s0 a t;
  inv_in_none : ∀ t, longest_in_weight s !! t = None →
    longest_in_route s !! t = None;
  inv_in_max : ∀ q a t, path s0 q → last q = Some a → a ∈ D → edge s0 a t →
    path_weight s0 q ≤ default 0 (longest_in_weight s !! t);
  inv_best :
    match longest_route s, longest_route_weight s with
    | Some r, Some w => path s0 r ∧ path_weight s0 r = w
    | None, None => True
    | _, _ => False
    end;
  inv_best_max : ∀ q a, path s0 q → last q = Some a → a ∈ D →
    succs s0 a = ∅ →
    ∃ w, longest_route_weight s = Some w ∧ path_weight s0 q ≤ w
}.

(** The same, with the ranking checked edge by edge. *)
Definition ranked (rank : L → nat) s : bool :=
  forallb (λ '(a, ts), forallb (λ b, bool_decide (rank a < rank b)%nat) (elements ts))
          (map_to_list (edges s)).

(** What every object reachable through the three methods satisfies, whether
    or not its two adjacency views agree. *)
Definition coherent s : Prop :=
  dom (edges s) = dom (nodes s) ∧ dom (rev_edges s) = dom (nodes s) ∧
  (∀ a b, b ∈ succs s a → is_node s b) ∧
  unseen_sources s ⊆ dom (nodes s) ∧
  (∀ a w, nodes s !! a = Some w → 0 ≤ w) ∧
  (is_Some (longest_route s) ↔ is_Some (longest_route_weight s)).

(** The labels that still have outgoing edges. *)
Definition with_targets s : gset L :=
  filter (λ a, succs s a ≠ ∅) (dom (edges s)).

(** A bound on the number of iterations the loop can still make. *)
Definition potential s : nat :=
  (size (with_targets s) * S (size (dom (nodes s))) + size (unseen_sources s))%nat.

(** What the stored routes satisfy during a traversal that began in [s0],
    whether or not the two adjacency views of [s0] agree. *)
Record route_inv (s0 s : state L) : Prop := RouteInv {
  ri_nodes : nodes s = nodes s0;
  ri_edges : ∀ a, succs s a ⊆ succs s0 a;
  ri_in_some : ∀ t w, longest_in_weight s !! t = Some w →
    ∃ r a, longest_in_route s !! t = Some r ∧ path s0 r ∧
           path_weight s0 r = w ∧ last r = Some a ∧ edge s0 a t;
  ri_in_none : ∀ t, longest_in_weight s !! t = None →
    longest_in_route s !! t = None;
  ri_best :
    match longest_route s, longest_route_weight s with
    | Some r, Some w => path s0 r ∧ path_weight s0 r = w
    | None, None => True
    | _, _ => False
    end
}.

End Graph.

(** ** Concrete graphs *)

(** The scenario of the module's [__main__]. *)
Definition main_calls : list (call nat) :=
  [AddNode 0%nat 0; AddNode 1%nat 1; AddNode 2%nat 2; AddNode 3%nat 3;
   AddNode 4%nat 4; AddNode 5%nat 5;
   AddEdge 3%nat 5%nat; AddEdge 2%nat 5%nat; AddEdge 2%nat 4%nat;
   AddEdge 1%nat 2%nat].

Definition main_graph : state nat :=
  match build main_calls with Ret _ s => s | _ => init end.

(** One edge, from 1 (weight 1) to 2 (weight 2). *)
Definition edge_calls : list (call nat) :=
  [AddNode 1%nat 1; AddNode 2%nat 2; AddEdge 1%nat 2%nat].

Definition edge_graph : state nat :=
  match build edge_calls with Ret _ s => s | _ => init end.

Definition edge_graph_done : state nat :=
  match longest_path [1; 2]%nat edge_graph with Ret _ s => s | _ => init end.

(** The same, with label 1 added once more at the end. *)
Definition readd_calls : list (call nat) := edge_calls ++ [AddNode 1%nat 1].

Definition readd_graph : state nat :=
  match build readd_calls with Ret _ s => s | _ => init end.

(** Two isolated nodes of weight 5; label 1 has been finalised. *)
Definition tie_state : state nat :=
  match build [AddNode 1%nat 5; AddNode 2%nat 5] with
  | Ret _ s => match iteration 1%nat s with Ret _ s' => s' | _ => init end
  | _ => init
  end.

(** Label 2 added once more between its incoming and its outgoing edge:
    the forward view is the chain 1 -> 2 -> 3, the reverse view has lost
    the edge from 1 to 2. *)
Definition relink_calls : list (call nat) :=
  [AddNode 1%nat 5; AddNode 2%nat 1; AddNode 3%nat 1; AddEdge 1%nat 2%nat;
   AddNode 2%nat 1; AddEdge 2%nat 3%nat].

Definition relink_graph : state nat :=
  match build relink_calls with Ret _ s => s | _ => init end.

(** A cycle between 1 and 2, a node 3 below it, and an isolated node 0. *)
Definition cycle_calls : list (call nat) :=
  [AddNode 0%nat 4; AddNode 1%nat 1; AddNode 2%nat 2; AddNode 3%nat 3;
   AddEdge 1%nat 2%nat; AddEdge 2%nat 1%nat; AddEdge 2%nat 3%nat].

Definition cycle_graph : state nat :=
  match build cycle_calls with Ret _ s => s | _ => init end.

Definition cycle_graph_done : state nat :=
  match longest_path [0%nat] cycle_graph with Ret _ s => s | _ => init end.

(** The one-edge graph after a traversal, with a node 3 of weight 1 added. *)
Definition grown_graph : state nat :=
  match add_node 3%nat 1 edge_graph_done with Ret _ s => s | _ => init end.

(** The two nodes of the one-edge graph. *)
Definition edge_nodes : state nat :=
  match build (take 2 edge_calls) with Ret _ s => s | _ => init end.

(** The nodes of the scenario, the scenario after its first two edges, and
    the scenario after a traversal. *)
Definition main_nodes : state nat :=
  match build (take 6 main_calls) with Ret _ s => s | _ => init end.

Definition main_two_edges : state nat :=
  match build (take 8 main_calls) with Ret _ s => s | _ => init end.

Definition main_graph_done : state nat :=
  match longest_path [0; 1; 2; 3; 4; 5]%nat main_graph with
  | Ret _ s => s
  | _ => init
  end.

(** * Proofs *)

Local Open Scope Z_scope.

(** ** Paths *)

Section PathFacts.
Context {L : Type} `{!EqDecision L, !Countable L}.
Implicit Types (s : state L) (a b : L) (p q : list L).
Local Open Scope Z_scope.

Lemma size_zero_empty (X : gset L) : size X = 0%nat ↔ X = ∅.
Proof. rewrite size_empty_iff. apply leibniz_equiv_iff. Qed.

Lemma path_singleton s a : is_node s a → path s [a].
Proof.
  intros Ha. split; [done|]. split.
  - intros b Hb. apply list_elem_of_singleton in Hb. by subst.
  - intros [|i] x y Hx Hy; simplify_eq/=.
Qed.

Lemma path_snoc s p a b :
  path s p → last p = Some a → edge s a b → is_node s b → path s (p ++ [b]).
Proof.
  intros (Hne & Hn & He) Hl Hab Hb. split; [by destruct p|]. split.
  - intros x [Hx|Hx]%elem_of_app; [by apply Hn|].
    apply list_elem_of_singleton in Hx. by subst.
  - intros i x y Hx Hy.
    destruct (decide (S i < length p)%nat) as [Hlt|Hge].
    + rewrite lookup_app_l in Hx by lia. rewrite lookup_app_l in Hy by lia. eauto.
    + assert (S i = length p) as Hi.
      { apply lookup_lt_Some in Hy. rewrite length_app in Hy. simpl in Hy. lia. }
      rewrite lookup_app_l in Hx by lia.
      rewrite lookup_app_r in Hy by lia.
      rewrite Hi, Nat.sub_diag in Hy. simplify_eq/=.
      apply last_Some in Hl as [p' ->].
      rewrite length_app in Hi. simpl in Hi.
      rewrite lookup_app_r in Hx by lia.
      replace (i - length p')%nat with 0%nat in Hx by lia. by simplify_eq/=.
Qed.

Lemma path_snoc_inv s q b :
  path s (q ++ [b]) → q ≠ [] → path s q ∧ ∃ a, last q = Some a ∧ edge s a b.
Proof.
  intros (_ & Hn & He) Hq. split.
  - split; [done|]. split.
    + intros x Hx. apply Hn, elem_of_app. by left.
    + intros i x y Hx Hy. apply (He i).
      * by apply lookup_app_l_Some.
      * by apply lookup_app_l_Some.
  - destruct (last q) as [a|] eqn:Hl; [|by apply last_None in Hl].
    exists a. split; [done|].
    apply last_Some in Hl as [q' ->].
    apply (He (length q')).
    + rewrite <- app_assoc. simpl. by apply list_lookup_middle.
    + rewrite lookup_app_r; rewrite length_app; simpl; [|lia].
      by replace (S (length q') - (length q' + 1))%nat with 0%nat by lia.
Qed.

Lemma path_weight_app s p q :
  path_weight s (p ++ q) = path_weight s p + path_weight s q.
Proof. induction p as [|x p IH]; simpl; [done|]. rewrite IH. lia. Qed.

Lemma path_weight_snoc s p b :
  path_weight s (p ++ [b]) = path_weight s p + weight_of s b.
Proof. rewrite path_weight_app. simpl. lia. Qed.

Lemma path_weight_nonneg s p :
  (∀ a w, nodes s !! a = Some w → 0 ≤ w) → 0 ≤ path_weight s p.
Proof.
  intros Hw. induction p as [|x p IH]; simpl; [done|].
  assert (0 ≤ weight_of s x); [|lia].
  unfold weight_of. destruct (nodes s !! x) eqn:E; simpl; [eauto|done].
Qed.

Lemma path_last_node s p a : path s p → last p = Some a → is_node s a.
Proof. intros (_ & Hn & _) Hl. by apply Hn, last_Some_elem_of. Qed.

End PathFacts.

(** ** The frame of the traversal *)

Section Frame.
Context {L : Type} `{!EqDecision L, !Countable L}.
Implicit Types (s : state L) (a b : L) (p q : list L).
Local Open Scope Z_scope.

Lemma frame_refl s : frame s s.
Proof. by repeat split. Qed.

Lemma frame_trans s1 s2 s3 : frame s1 s2 → frame s2 s3 → frame s1 s3.
Proof. intros (?&?&?) (?&?&?). repeat split; congruence. Qed.

Lemma discard_rev_frame source target s s' :
  state_of (discard_rev source target s) = Some s' → frame s s'.
Proof.
  unfold discard_rev. destruct (rev_edges s !! target) as [ss|] eqn:E; simpl;
    intros; simplify_eq; [|apply frame_refl].
  repeat split; simpl. rewrite dom_insert_L. apply elem_of_dom_2 in E. set_solver.
Qed.

Lemma for_each_frame (body : L → state L → res L unit) l s s' :
  (∀ x s1 s2, state_of (body x s1) = Some s2 → frame s1 s2) →
  state_of (for_each body l s) = Some s' → frame s s'.
Proof.
  intros Hbody. revert s. induction l as [|x l IH]; intros s; simpl.
  - intros; simplify_eq. apply frame_refl.
  - destruct (body x s) as [[] s1|e s1|] eqn:E; simpl; [|intros; simplify_eq..].
    + intros Hs'. eapply frame_trans; [|by apply IH]. apply (Hbody x). by rewrite E.
    + apply (Hbody x). by rewrite E.
Qed.

Lemma del_edges_from_frame source s s' :
  state_of (del_edges_from source s) = Some s' → frame s s'.
Proof.
  unfold del_edges_from. destruct (edges s !! source) as [ts|] eqn:E; simpl;
    [|intros; simplify_eq; apply frame_refl].
  intros Hs'. eapply frame_trans; [|eapply for_each_frame, Hs'].
  - repeat split; simpl. rewrite dom_insert_L. apply elem_of_dom_2 in E. set_solver.
  - intros x s1 s2. apply discard_rev_frame.
Qed.

Lemma relax_frame nw nr s t : frame s (relax nw nr s t).
Proof. unfold relax. case_match; by repeat split. Qed.

Lemma foldl_relax_frame nw nr l s : frame s (foldl (relax nw nr) s l).
Proof.
  revert s. induction l as [|x l IH]; intros s; simpl; [apply frame_refl|].
  eapply frame_trans; [apply relax_frame|apply IH].
Qed.

Lemma iteration_frame n s s' :
  state_of (iteration n s) = Some s' → frame s s'.
Proof.
  unfold iteration.
  destruct (nodes (popped n s) !! n) as [w|]; [|simpl; intros; simplify_eq; by repeat split].
  destruct (edges (popped n s) !! n) as [ts|]; [|simpl; intros; simplify_eq; by repeat split].
  case_decide.
  - destruct (longest_route (popped n s)); [destruct (longest_route_weight (popped n s)); [case_match|]|];
      simpl; intros; simplify_eq; by repeat split.
  - intros Hs'. apply del_edges_from_frame in Hs'.
    eapply frame_trans; [|apply Hs'].
    eapply frame_trans; [|apply foldl_relax_frame]. by repeat split.
Qed.

Lemma iterate_frame pops s s' :
  state_of (iterate pops s) = Some s' → frame s s'.
Proof.
  revert s. induction pops as [|n pops IH]; intros s; simpl.
  - intros; simplify_eq. apply frame_refl.
  - case_decide; [|done].
    destruct (iteration n s) as [[] s1|e s1|] eqn:E; simpl; [|intros; simplify_eq..].
    + intros Hs'. eapply frame_trans; [|by apply IH]. apply (iteration_frame n). by rewrite E.
    + apply (iteration_frame n). by rewrite E.
Qed.

Lemma longest_path_frame pops s s' :
  state_of (longest_path pops s) = Some s' → frame s s'.
Proof.
  unfold longest_path, while_loop.
  destruct (iterate pops s) as [[] s1|e s1|] eqn:E; simpl; [|intros; simplify_eq..].
  - case_decide; simpl; [|done]. intros; simplify_eq.
    apply (iterate_frame pops). by rewrite E.
  - apply (iterate_frame pops). by rewrite E.
Qed.

End Frame.

(** ** Construction *)

Section Construction.
Context {L : Type} `{!EqDecision L, !Countable L}.
Implicit Types (s : state L) (a b : L) (p q : list L).
Local Open Scope Z_scope.

Lemma add_node_inv label weight s r :
  add_node label weight s = r →
  (weight < 0 ∧ r = Raise InvalidWeight s) ∨
  (0 ≤ weight ∧ ∃ s', r = Ret tt s' ∧
     nodes s' = <[label := weight]> (nodes s) ∧
     edges s' = <[label := ∅]> (edges s) ∧
     rev_edges s' = <[label := ∅]> (rev_edges s) ∧
     unseen_sources s' = {[label]} ∪ unseen_sources s ∧
     longest_in_weight s' = longest_in_weight s ∧
     longest_in_route s' = longest_in_route s ∧
     longest_route s' = longest_route s ∧
     longest_route_weight s' = longest_route_weight s).
Proof.
  unfold add_node. intros <-. destruct (Z.ltb_spec weight 0); [left|right]; [done|].
  split; [done|]. eexists. split; [done|]. by simpl.
Qed.

Lemma succs_insert s (m : gmap L (gset L)) a b X :
  default ∅ (<[a := X]> m !! b) = if decide (a = b) then X else default ∅ (m !! b).
Proof. rewrite lookup_insert. by case_decide. Qed.

Lemma constructed_init : constructed (init (L:=L)).
Proof.
  split; simpl; done.
Qed.

Lemma add_node_constructed label weight s s' :
  constructed s → add_node label weight s = Ret tt s' → constructed s'.
Proof.
  intros [c_edges_dom c_rev_dom c_succs c_preds c_frontier c_weights ? ? ? ?] Hr.
  apply add_node_inv in Hr as [[_ ?]|(Hw & s1 & ? & Hn & He & Hre & Hu & ? & ? & ? & ?)];
    [done|]. simplify_eq.
  split; unfold is_node, succs, preds in *; rewrite ?Hn, ?He, ?Hre, ?Hu; try congruence.
  - rewrite !dom_insert_L. congruence.
  - rewrite !dom_insert_L. congruence.
  - intros a b. rewrite succs_insert by done. rewrite dom_insert_L. case_decide; [set_solver|].
    intros ?%c_succs. set_solver.
  - intros a b. rewrite succs_insert by done. rewrite dom_insert_L. case_decide; [set_solver|].
    intros ?%c_preds. set_solver.
  - intros a. rewrite lookup_insert. case_decide; [set_solver|].
    rewrite <- c_frontier. set_solver.
  - intros a w. rewrite lookup_insert. case_decide; [|by eauto]. intros; simplify_eq. done.
Qed.

Lemma add_edge_constructed source target s s' :
  constructed s → add_edge source target s = Ret tt s' → constructed s'.
Proof.
  intros [c_edges_dom c_rev_dom c_succs c_preds c_frontier c_weights ? ? ? ?] Hr.
  unfold add_edge in Hr.
  destruct (nodes s !! source) as [ws|] eqn:Es; [|done].
  destruct (nodes s !! target) as [wt|] eqn:Et; [|done].
  destruct (edges s !! source) as [ts|] eqn:Ets; [|done].
  simpl in Hr. destruct (rev_edges s !! target) as [ss|] eqn:Ess; [|done].
  simplify_eq.
  apply elem_of_dom_2 in Es, Et. pose proof (elem_of_dom_2 _ _ _ Ets). pose proof (elem_of_dom_2 _ _ _ Ess).
  split; unfold is_node, succs, preds in *; simpl; try done.
  - rewrite dom_insert_L. set_solver.
  - rewrite dom_insert_L. set_solver.
  - intros a b. rewrite succs_insert by done. case_decide.
    + subst. intros [?|Hb]%elem_of_union; [set_solver|]. apply (c_succs a). by rewrite Ets.
    + apply c_succs.
  - intros a b. rewrite succs_insert by done. case_decide.
    + subst. intros [?|Hb]%elem_of_union; [set_solver|]. apply (c_preds _ b). by rewrite Ess.
    + apply c_preds.
  - intros a. rewrite lookup_insert. case_decide.
    + subst. split; [set_solver|]. intros ?; simplify_eq. set_solver.
    + rewrite <- c_frontier. set_solver.
Qed.

Lemma exec_all_constructed cs s s' :
  constructed s → exec_all cs s = Ret tt s' → constructed s'.
Proof.
  revert s. induction cs as [|c cs IH]; intros s Hs; simpl.
  - by intros; simplify_eq.
  - destruct (exec c s) as [[] s1|e s1|] eqn:E; [|done..].
    apply IH. destruct c; simpl in E.
    + by eapply add_node_constructed.
    + by eapply add_edge_constructed.
Qed.

Lemma build_constructed cs s : build cs = Ret tt s → constructed s.
Proof. apply exec_all_constructed, constructed_init. Qed.

(** Every reachable object has the same keys in its three graph
    dictionaries. *)
Lemma reachable_same_keys s : reachable s → same_keys s.
Proof.
  induction 1 as [|s label weight s' _ [IH1 IH2] Hr|s source target s' _ [IH1 IH2] Hr
                  |s pops r s' _ [IH1 IH2] Hr].
  - split; simpl; by rewrite !dom_empty_L.
  - apply add_node_inv in Hr as [[_ ?]|(Hw & s1 & ? & Hn & He & Hre & _)]; [done|].
    simplify_eq. split; rewrite ?Hn, ?He, ?Hre, !dom_insert_L; congruence.
  - unfold add_edge in Hr.
    destruct (nodes s !! source) as [ws|] eqn:Es; [|done].
    destruct (nodes s !! target) as [wt|] eqn:Et; [|done].
    destruct (edges s !! source) as [ts|] eqn:Ets; [|done].
    simpl in Hr. destruct (rev_edges s !! target) as [ss|] eqn:Ess; [|done].
    simplify_eq. apply elem_of_dom_2 in Es, Et, Ets, Ess.
    split; simpl; rewrite dom_insert_L; set_solver.
  - destruct (longest_path_frame pops s s') as (Hn & He & Hre); [by rewrite Hr|].
    split; congruence.
Qed.

Lemma exec_all_reachable cs s s' :
  reachable s → exec_all cs s = Ret tt s' → reachable s'.
Proof.
  revert s. induction cs as [|c cs IH]; intros s Hs; simpl.
  - by intros; simplify_eq.
  - destruct (exec c s) as [[] s1|e s1|] eqn:E; [|done..].
    apply IH. destruct c; simpl in E.
    + by eapply reachable_add_node.
    + by eapply reachable_add_edge.
Qed.

Lemma build_reachable cs s : build cs = Ret tt s → reachable s.
Proof. apply exec_all_reachable, reachable_init. Qed.

End Construction.

(** ** One iteration in closed form *)

Section ClosedForm.
Context {L : Type} `{!EqDecision L, !Countable L}.
Implicit Types (s : state L) (a b n : L) (p q : list L) (ts : gset L).
Local Open Scope Z_scope.

Lemma for_each_discard_rev source l s :
  (∀ t, t ∈ l → is_Some (rev_edges s !! t)) →
  ∃ s', for_each (discard_rev source) l s = Ret tt s' ∧
    nodes s' = nodes s ∧ edges s' = edges s ∧
    longest_in_weight s' = longest_in_weight s ∧
    longest_in_route s' = longest_in_route s ∧
    longest_route s' = longest_route s ∧
    longest_route_weight s' = longest_route_weight s ∧
    (∀ t, t ∈ l →
       rev_edges s' !! t = (λ ss, ss ∖ {[source]}) <$> rev_edges s !! t) ∧
    (∀ t, t ∉ l → rev_edges s' !! t = rev_edges s !! t) ∧
    (∀ x, x ∈ unseen_sources s' ↔
       x ∈ unseen_sources s ∨
       (x ∈ l ∧ ∃ ss, rev_edges s !! x = Some ss ∧ ss ∖ {[source]} = ∅)).
Proof.
  revert s. induction l as [|x l IH]; intros s Hl; simpl.
  - exists s. split_and!; try done.
    + intros t Ht. by apply elem_of_nil in Ht.
    + intros x. split; [auto|]. intros [?|[Hx _]]; [done|]. by apply elem_of_nil in Hx.
  - destruct (Hl x) as [ss Hss]; [by left|].
    unfold discard_rev at 1. rewrite Hss.
    match goal with |- ∃ s', for_each _ _ ?st = _ ∧ _ => set (s1 := st) end.
    assert (rev_edges s1 = <[x := ss ∖ {[source]}]> (rev_edges s)) as Hr1 by done.
    assert (∀ y, y ∈ unseen_sources s1 ↔
              y ∈ unseen_sources s ∨ (y = x ∧ ss ∖ {[source]} = ∅)) as Hu1.
    { intros y. subst s1. simpl. destruct (decide (size (ss ∖ {[source]}) = 0%nat)) as [Hsz|Hsz].
      - apply size_zero_empty in Hsz. set_solver.
      - split; [by left|]. intros [?|[_ Hem]]; [done|].
        rewrite Hem, size_empty in Hsz. done. }
    destruct (IH s1) as (s' & Hrun & Hn & He & Hw & Hr & Hb & Hbw & Hin & Hout & Hu).
    { intros t Ht. rewrite Hr1. destruct (decide (x = t)) as [->|Hne].
      - rewrite lookup_insert_eq. by eexists.
      - rewrite lookup_insert_ne by done. apply Hl. by right. }
    exists s'. split; [done|].
    assert (nodes s1 = nodes s ∧ edges s1 = edges s ∧
            longest_in_weight s1 = longest_in_weight s ∧
            longest_in_route s1 = longest_in_route s ∧
            longest_route s1 = longest_route s ∧
            longest_route_weight s1 = longest_route_weight s)
      as (Hn1 & He1 & Hw1 & Hlr1 & Hb1 & Hbw1) by done.
    clearbody s1.
    split_and!; try congruence.
    + intros t Ht. destruct (decide (t ∈ l)) as [Htl|Htl].
      * rewrite Hin by done. rewrite Hr1. destruct (decide (x = t)) as [->|Hne].
        -- rewrite lookup_insert_eq, Hss. simpl. f_equal. set_solver.
        -- by rewrite lookup_insert_ne.
      * rewrite Hout by done. apply elem_of_cons in Ht as [->|?]; [|done].
        by rewrite Hr1, lookup_insert_eq, Hss.
    + intros t Ht. rewrite Hout by set_solver. rewrite Hr1, lookup_insert_ne; [done|set_solver].
    + intros y. rewrite Hu, Hu1. split.
      * intros [[Hx|[-> Hem]]|(Hx & ss' & Hss' & Hem)].
        -- by left.
        -- right. split; [by left|]. by exists ss.
        -- right. split; [by right|]. rewrite Hr1 in Hss'.
           destruct (decide (x = y)) as [->|Hne].
           ++ rewrite lookup_insert_eq in Hss'. simplify_eq.
              exists ss. split; [done|]. set_solver.
           ++ rewrite lookup_insert_ne in Hss' by done. by exists ss'.
      * intros [Hx|(Hx & ss' & Hss' & Hem)]; [by left; left|].
        destruct (decide (x = y)) as [->|Hne].
        -- left. right. split; [done|]. by simplify_eq.
        -- right. apply elem_of_cons in Hx as [?|Hx]; [done|]. split; [done|].
           rewrite Hr1, lookup_insert_ne by done. by exists ss'.
Qed.

Lemma foldl_relax_spec nw nr l s :
  let s' := foldl (relax nw nr) s l in
  nodes s' = nodes s ∧ edges s' = edges s ∧ rev_edges s' = rev_edges s ∧
  unseen_sources s' = unseen_sources s ∧
  longest_route s' = longest_route s ∧
  longest_route_weight s' = longest_route_weight s ∧
  (∀ t, t ∈ l → default 0 (longest_in_weight s !! t) < nw →
     longest_in_weight s' !! t = Some nw ∧ longest_in_route s' !! t = Some nr) ∧
  (∀ t, ¬ (t ∈ l ∧ default 0 (longest_in_weight s !! t) < nw) →
     longest_in_weight s' !! t = longest_in_weight s !! t ∧
     longest_in_route s' !! t = longest_in_route s !! t).
Proof.
  revert s. induction l as [|x l IH]; intros s; simpl.
  - split_and!; try done. intros t Ht. by apply elem_of_nil in Ht.
  - destruct (IH (relax nw nr s x)) as (Hn & He & Hre & Hu & Hb & Hbw & Hin & Hout).
    unfold relax in *.
    destruct (Z.ltb_spec (default 0 (longest_in_weight s !! x)) nw) as [Hlt|Hge];
      simpl in *; split_and!; try done.
    + intros t Ht Hlt'. destruct (decide (t = x)) as [->|Hne].
      * destruct (Hout x) as [-> ->]; [|by rewrite !lookup_insert_eq].
        rewrite lookup_insert_eq. simpl. intros [_ ?]. lia.
      * apply elem_of_cons in Ht as [?|Ht]; [done|].
        apply Hin; [done|]. by rewrite lookup_insert_ne.
    + intros t Ht. destruct (Hout t) as [-> ->].
      * intros [Htl Hlt']. destruct (decide (t = x)) as [->|Hne].
        -- apply Ht. split; [by left|done].
        -- rewrite lookup_insert_ne in Hlt' by done. apply Ht. split; [by right|done].
      * destruct (decide (t = x)) as [->|Hne].
        -- exfalso. apply Ht. split; [by left|done].
        -- by rewrite !lookup_insert_ne.
    + intros t Ht Hlt'. apply elem_of_cons in Ht as [->|Ht]; [lia|]. by apply Hin.
    + intros t Ht. apply Hout. intros [Htl Hlt']. apply Ht. split; [by right|done].
Qed.

Lemma iteration_spec n w ts s :
  nodes s !! n = Some w →
  edges s !! n = Some ts →
  (∀ t, t ∈ ts → is_Some (rev_edges s !! t)) →
  (is_Some (longest_route s) → is_Some (longest_route_weight s)) →
  ∃ s', iteration n s = Ret tt s' ∧ iteration_post n w ts s s'.
Proof.
  intros Hw Hts Hrev Hbest. unfold iteration. simpl. rewrite Hw, Hts.
  change (new_weight_of n w (popped n s)) with (new_weight_of n w s).
  change (new_route_of n (popped n s)) with (new_route_of n s).
  case_decide as Hsz.
  - apply size_zero_empty in Hsz. subst ts.
    assert (∀ s', nodes s' = nodes s → edges s' = edges s →
      rev_edges s' = rev_edges s →
      unseen_sources s' = unseen_sources s ∖ {[n]} →
      longest_in_weight s' = longest_in_weight s →
      longest_in_route s' = longest_in_route s →
      (longest_route s', longest_route_weight s') =
        (if improves s (new_weight_of n w s)
         then (Some (new_route_of n s), Some (new_weight_of n w s))
         else (longest_route s, longest_route_weight s)) →
      iteration_post n w ∅ s s') as Hpost.
    { intros s' Hn He Hr Hu Hiw Hir Hb. split; rewrite ?Hn, ?He, ?Hr, ?Hiw, ?Hir.
      - done.
      - by rewrite insert_id.
      - intros t Ht. set_solver.
      - done.
      - intros x. rewrite Hu. set_solver.
      - intros t Ht. set_solver.
      - done.
      - by rewrite decide_True. }
    unfold improves in Hpost.
    destruct (longest_route s) as [r|] eqn:Er.
    + destruct Hbest as [bw Hbw]; [done|]. rewrite Hbw in *.
      destruct (bw <? new_weight_of n w s) eqn:Elt;
        (eexists; split; [done|]; apply Hpost; simpl; try done).
      by rewrite Er, Hbw.
    + eexists; split; [done|]. by apply Hpost.
  - unfold del_edges_from.
    destruct (foldl_relax_spec (new_weight_of n w s) (new_route_of n s)
                (elements ts) (popped n s))
      as (Hn & He & Hre & Hu & Hb & Hbw & Hin & Hout).
    rewrite He. simpl. rewrite Hts.
    match goal with |- ∃ s', for_each _ _ ?st = _ ∧ _ => set (s1 := st) end.
    destruct (for_each_discard_rev n (elements ts) s1)
      as (s' & Hrun & Hn' & He' & Hw' & Hr' & Hb' & Hbw' & Hin' & Hout' & Hu').
    { intros t Ht. simpl. rewrite Hre. simpl. apply Hrev. by apply elem_of_elements. }
    exists s'. split; [done|]. simpl in *.
    split; rewrite ?Hn', ?He', ?Hw', ?Hr', ?Hb', ?Hbw', ?Hn, ?He, ?Hre, ?Hb, ?Hbw; try done.
    + intros t Ht. rewrite Hin' by by apply elem_of_elements. by rewrite Hre.
    + intros t Ht. rewrite Hout' by by rewrite elem_of_elements. by rewrite Hre.
    + intros x. rewrite Hu', Hu, Hre. setoid_rewrite elem_of_elements. set_solver.
    + intros t Ht. apply Hin. by apply elem_of_elements.
    + intros t Ht. apply Hout. by rewrite elem_of_elements.
    + rewrite decide_False; [done|]. intros ->. by rewrite size_empty in Hsz.
Qed.

End ClosedForm.

(** ** The loop invariant *)

Section Invariant.
Context {L : Type} `{!EqDecision L, !Countable L}.
Implicit Types (s : state L) (a b n : L) (p q : list L) (ts D : gset L).
Local Open Scope Z_scope.

Section Run.
Variable s0 : state L.
Hypothesis Hc : constructed s0.
Hypothesis Hsync : synchronized s0.

Lemma node_lookups a :
  is_node s0 a →
  ∃ w, nodes s0 !! a = Some w ∧ edges s0 !! a = Some (succs s0 a) ∧
       rev_edges s0 !! a = Some (preds s0 a).
Proof.
  intros Ha. unfold is_node in Ha.
  pose proof Ha as Ha1. pose proof Ha as Ha2.
  rewrite <- (c_edges_dom _ Hc) in Ha1. rewrite <- (c_rev_dom _ Hc) in Ha2.
  apply elem_of_dom in Ha as [w Hw], Ha1 as [ts Hts], Ha2 as [ss Hss].
  exists w. unfold succs, preds. by rewrite Hts, Hss.
Qed.

Lemma inv_init : inv s0 ∅ s0.
Proof.
  split; try done.
  - intros b. destruct (rev_edges s0 !! b); simpl; [|done]. f_equal. set_solver.
  - intros a. rewrite (c_frontier _ Hc). split.
    + intros Ha. split; [|split; [set_solver|]].
      * unfold is_node. rewrite <- (c_rev_dom _ Hc). by apply elem_of_dom_2 in Ha.
      * unfold preds. by rewrite Ha.
    + intros (Ha & _ & Hp). destruct (node_lookups a Ha) as (_ & _ & _ & ->).
      f_equal. set_solver.
  - intros t w. by rewrite (c_in_weight _ Hc).
  - intros t _. by rewrite (c_in_route _ Hc).
  - by rewrite (c_route _ Hc), (c_route_weight _ Hc).
Qed.

(** The weight and the route of the node being finalised. *)
Lemma finalised D s n w :
  inv s0 D s → n ∈ unseen_sources s → nodes s0 !! n = Some w →
  path s0 (new_route_of n s) ∧
  path_weight s0 (new_route_of n s) = new_weight_of n w s ∧
  last (new_route_of n s) = Some n ∧
  ∀ q, path s0 q → last q = Some n → path_weight s0 q ≤ new_weight_of n w s.
Proof.
  intros HI Hn Hw. apply (inv_unseen _ _ _ HI) in Hn as (Hnode & HnD & Hpre).
  assert (weight_of s0 n = w) as Hwn by (unfold weight_of; by rewrite Hw).
  unfold new_route_of, new_weight_of.
  assert (0 ≤ default 0 (longest_in_weight s !! n)) as Hpos.
  { destruct (longest_in_weight s !! n) as [w'|] eqn:E; simpl; [|done].
    apply (inv_in_some _ _ _ HI) in E as (r & a & _ & _ & <- & _).
    apply path_weight_nonneg, (c_weights _ Hc). }
  split_and!.
  - destruct (longest_in_weight s !! n) as [w'|] eqn:E.
    + apply (inv_in_some _ _ _ HI) in E as (r & a & -> & Hr & _ & Hl & He). simpl.
      by eapply path_snoc.
    + rewrite (inv_in_none _ _ _ HI) by done. simpl. by apply path_singleton.
  - destruct (longest_in_weight s !! n) as [w'|] eqn:E.
    + apply (inv_in_some _ _ _ HI) in E as (r & a & -> & Hr & <- & Hl & He). simpl.
      rewrite path_weight_snoc. lia.
    + rewrite (inv_in_none _ _ _ HI) by done. simpl. lia.
  - apply last_snoc.
  - intros q Hq [q' ->]%last_Some. rewrite path_weight_snoc, Hwn.
    destruct (decide (q' = [])) as [->|Hne]; [simpl; lia|].
    apply path_snoc_inv in Hq as (Hq' & a & Hl & He); [|done].
    assert (path_weight s0 q' ≤ default 0 (longest_in_weight s !! n)); [|lia].
    eapply (inv_in_max _ _ _ HI); [done..| |done].
    apply Hpre, Hsync, He.
Qed.

Lemma inv_step D s n :
  inv s0 D s → n ∈ unseen_sources s →
  ∃ s', iteration n s = Ret tt s' ∧ inv s0 ({[n]} ∪ D) s'.
Proof.
  intros HI Hn.
  destruct (proj1 (inv_unseen _ _ _ HI n) Hn) as (Hnode & HnD & Hpre).
  destruct (node_lookups n Hnode) as (w & Hw & Hts & Hss).
  set (ts := succs s0 n) in *.
  destruct (finalised D s n w HI Hn Hw) as (Hpath & Hweight & Hlast & Hmax).
  destruct (iteration_spec n w ts s) as (s' & Hrun & HP).
  { by rewrite (inv_nodes _ _ _ HI). }
  { by rewrite (inv_edges _ _ _ HI), decide_False. }
  { intros t Ht. rewrite (inv_rev _ _ _ HI).
    destruct (node_lookups t) as (_ & _ & _ & ->); [|by eexists].
    by eapply (c_succs _ Hc). }
  { pose proof (inv_best _ _ _ HI) as Hb. intros [r Hr]. rewrite Hr in Hb.
    destruct (longest_route_weight s); [by eexists|done]. }
  exists s'. split; [done|].
  set (nw := new_weight_of n w s) in *. set (nr := new_route_of n s) in *.
  assert (n ∉ ts) as Hnts.
  { intros Hin. apply HnD, Hpre, Hsync, Hin. }
  assert (∀ t, default 0 (longest_in_weight s !! t)
               ≤ default 0 (longest_in_weight s' !! t)) as Hmono.
  { intros t.
    destruct (decide (t ∈ ts ∧ default 0 (longest_in_weight s !! t) < nw)) as [[Ht Hlt]|Hno].
    - destruct (ip_in_new _ _ _ _ _ HP t Ht Hlt) as [-> _]. simpl. lia.
    - destruct (ip_in_old _ _ _ _ _ HP t Hno) as [-> _]. lia. }
  assert (∀ t, t ∈ ts → nw ≤ default 0 (longest_in_weight s' !! t)) as Hnew.
  { intros t Ht.
    destruct (decide (default 0 (longest_in_weight s !! t) < nw)) as [Hlt|Hno].
    - destruct (ip_in_new _ _ _ _ _ HP t Ht Hlt) as [-> _]. simpl. lia.
    - destruct (ip_in_old _ _ _ _ _ HP t) as [-> _]; [tauto|lia]. }
  split.
  - by rewrite (ip_nodes _ _ _ _ _ HP), (inv_nodes _ _ _ HI).
  - intros a. rewrite (ip_edges _ _ _ _ _ HP). destruct (decide (n = a)) as [<-|Hne].
    + rewrite lookup_insert_eq, decide_True by set_solver. by rewrite Hts.
    + rewrite lookup_insert_ne by done. rewrite (inv_edges _ _ _ HI).
      destruct (decide (a ∈ D)).
      * by rewrite decide_True by set_solver.
      * by rewrite decide_False by set_solver.
  - intros b. destruct (decide (b ∈ ts)) as [Hb|Hb].
    + rewrite (ip_rev_in _ _ _ _ _ HP) by done. rewrite (inv_rev _ _ _ HI).
      destruct (rev_edges s0 !! b); simpl; [|done]. f_equal. set_solver.
    + rewrite (ip_rev_out _ _ _ _ _ HP) by done. rewrite (inv_rev _ _ _ HI).
      destruct (rev_edges s0 !! b) as [ss|] eqn:E; simpl; [|done]. f_equal.
      assert (n ∉ ss); [|set_solver].
      intros Hin. apply Hb, Hsync. unfold preds. by rewrite E.
  - intros a. rewrite (ip_unseen _ _ _ _ _ HP). split.
    + intros [[Ha Hne]|(Ha & ss & Hss' & Hem)].
      * apply (inv_unseen _ _ _ HI) in Ha as (? & ? & ?). set_solver.
      * assert (is_node s0 a) as Hna by by eapply (c_succs _ Hc).
        destruct (node_lookups a Hna) as (_ & _ & _ & Hra).
        rewrite (inv_rev _ _ _ HI), Hra in Hss'. simpl in Hss'. simplify_eq.
        split; [done|]. split.
        -- intros [->%elem_of_singleton|HaD]%elem_of_union; [done|].
           apply (inv_done _ _ _ HI) in HaD as [_ HaD]. apply HnD, HaD, Hsync, Ha.
        -- intros x Hx. destruct (decide (x ∈ D)); [set_solver|].
           destruct (decide (x = n)) as [->|Hxn]; [set_solver|].
           assert (x ∈ (preds s0 a ∖ D) ∖ {[n]}) as Hx' by set_solver.
           rewrite Hem in Hx'. set_solver.
    + intros (Hna & HaD & Hpa). destruct (decide (n ∈ preds s0 a)) as [Hin|Hin].
      * right. split; [by apply Hsync|].
        destruct (node_lookups a Hna) as (_ & _ & _ & Hra).
        rewrite (inv_rev _ _ _ HI), Hra. simpl. eexists. split; [done|]. set_solver.
      * left. split; [|set_solver]. apply (inv_unseen _ _ _ HI). set_solver.
  - intros a [->%elem_of_singleton|Ha]%elem_of_union.
    + split; [done|set_solver].
    + apply (inv_done _ _ _ HI) in Ha as [? ?]. split; [done|set_solver].
  - intros t w' Hw'.
    destruct (decide (t ∈ ts ∧ default 0 (longest_in_weight s !! t) < nw)) as [[Ht Hlt]|Hno].
    + destruct (ip_in_new _ _ _ _ _ HP t Ht Hlt) as [Hiw Hir].
      rewrite Hiw in Hw'. simplify_eq. by exists nr, n.
    + destruct (ip_in_old _ _ _ _ _ HP t Hno) as [Hiw Hir].
      rewrite Hiw in Hw'. rewrite Hir. by apply (inv_in_some _ _ _ HI).
  - intros t Hw'.
    destruct (decide (t ∈ ts ∧ default 0 (longest_in_weight s !! t) < nw)) as [[Ht Hlt]|Hno].
    + destruct (ip_in_new _ _ _ _ _ HP t Ht Hlt) as [Hiw Hir]. by rewrite Hiw in Hw'.
    + destruct (ip_in_old _ _ _ _ _ HP t Hno) as [Hiw Hir].
      rewrite Hiw in Hw'. rewrite Hir. by apply (inv_in_none _ _ _ HI).
  - intros q a t Hq Hl [->%elem_of_singleton|Ha]%elem_of_union He.
    + specialize (Hmax q Hq Hl). specialize (Hnew t He). lia.
    + pose proof (inv_in_max _ _ _ HI q a t Hq Hl Ha He). specialize (Hmono t). lia.
  - pose proof (ip_best _ _ _ _ _ HP) as Hb. fold nw nr in Hb.
    pose proof (inv_best _ _ _ HI) as Hb0.
    destruct (decide (ts = ∅)); [destruct (improves s nw)|];
      injection Hb as -> ->; try done; by split.
  - intros q a Hq Hl Ha Hterm.
    pose proof (ip_best _ _ _ _ _ HP) as Hb. fold nw nr in Hb.
    pose proof (inv_best _ _ _ HI) as Hb0.
    apply elem_of_union in Ha as [->%elem_of_singleton|Ha].
    + specialize (Hmax q Hq Hl). fold ts in Hterm.
      rewrite decide_True in Hb by done. unfold improves in Hb.
      destruct (longest_route s) as [r|]; [destruct (longest_route_weight s) as [bw|]; [|done]|].
      * destruct (Z.ltb_spec bw nw); injection Hb as _ ->;
          eexists; (split; [done|lia]).
      * injection Hb as _ ->. eexists. split; [done|lia].
    + destruct (inv_best_max _ _ _ HI q a Hq Hl Ha Hterm) as (bw & Hbw & Hle).
      destruct (decide (ts = ∅)); [|injection Hb as _ ->; eauto].
      unfold improves in Hb. rewrite Hbw in Hb.
      destruct (longest_route s) as [r|].
      * destruct (Z.ltb_spec bw nw); injection Hb as _ ->;
          eexists; (split; [done|lia]).
      * by rewrite Hbw in Hb0.
Qed.

End Run.
End Invariant.

(** ** Runs of the loop *)

Section Runs.
Context {L : Type} `{!EqDecision L, !Countable L}.
Implicit Types (s : state L) (a b n : L) (p q : list L) (ts D : gset L).
Local Open Scope Z_scope.

Lemma tc_flip (R : relation L) a b : tc (flip R) a b → tc R b a.
Proof.
  induction 1 as [x y HR|x y z HR _ IH]; [by apply tc_once|].
  eapply tc_r; [apply IH|apply HR].
Qed.

Section Run.
Variable s0 : state L.
Hypothesis Hc : constructed s0.
Hypothesis Hsync : synchronized s0.

Lemma edge_source_node a b : edge s0 a b → is_node s0 a.
Proof. intros He. apply Hsync in He. by eapply (c_preds _ Hc). Qed.

Lemma edge_target_node a b : edge s0 a b → is_node s0 b.
Proof. apply (c_succs _ Hc). Qed.

Lemma tc_edge_node a b : tc (edge s0) a b → is_node s0 b.
Proof.
  induction 1 as [x y He|x y z _ _ IH]; [|exact IH]. by eapply edge_target_node.
Qed.

Lemma tc_flip_edge_node a b : tc (flip (edge s0)) a b → is_node s0 b.
Proof.
  induction 1 as [x y He|x y z _ _ IH]; [|exact IH]. by eapply edge_source_node.
Qed.

Lemma reachable_finite (R : relation L) a :
  (∀ b, tc R a b → is_node s0 b) → pred_finite (tc R a).
Proof.
  intros HR. exists (elements (dom (nodes s0))). intros y Hy.
  apply elem_of_elements. by apply HR.
Qed.

Lemma iterate_inv pops : ∀ D s s',
  inv s0 D s → iterate pops s = Ret tt s' →
  inv s0 (list_to_set pops ∪ D) s' ∧ NoDup pops ∧
  ∀ x, x ∈ pops → (x ∉ D) ∧ is_node s0 x.
Proof.
  induction pops as [|n pops IH]; intros D s s' HI Hrun; simpl in *.
  - simplify_eq. split_and!.
    + by replace (∅ ∪ D) with D by set_solver.
    + constructor.
    + intros x Hx. by apply elem_of_nil in Hx.
  - destruct (decide (n ∈ unseen_sources s)) as [Hn|]; [|done].
    destruct (inv_step s0 Hc Hsync D s n HI Hn) as (s1 & Hit & HI1).
    rewrite Hit in Hrun.
    destruct (IH _ _ _ HI1 Hrun) as (HI' & Hnd & Hin).
    apply (inv_unseen _ _ _ HI) in Hn as (Hnode & HnD & _).
    split_and!.
    + by replace ({[n]} ∪ list_to_set pops ∪ D)
        with (list_to_set pops ∪ ({[n]} ∪ D)) by set_solver.
    + constructor; [|done]. intros Hx. apply Hin in Hx as [Hx _]. set_solver.
    + intros x [->|Hx]%elem_of_cons; [done|].
      apply Hin in Hx as [Hx ?]. split; [set_solver|done].
Qed.

Lemma iterate_no_raise pops : ∀ D s e s',
  inv s0 D s → iterate pops s ≠ Raise e s'.
Proof.
  induction pops as [|n pops IH]; intros D s e s' HI; simpl; [done|].
  destruct (decide (n ∈ unseen_sources s)) as [Hn|]; [|done].
  destruct (inv_step s0 Hc Hsync D s n HI Hn) as (s1 & -> & HI1). by eapply IH.
Qed.

(** Once the frontier is empty, every node has been finalised. *)
Lemma frontier_empty_all_done D s :
  acyclic s0 → inv s0 D s → unseen_sources s = ∅ → D = dom (nodes s0).
Proof.
  intros Hacyc HI Hempty.
  assert (∀ x, Acc (edge s0) x → is_node s0 x → x ∈ D) as Hall.
  { induction 1 as [x _ IH]. intros Hx.
    destruct (decide (x ∈ D)) as [|HxD]; [done|].
    destruct (decide (preds s0 x ∖ D = ∅)) as [Hsub|Hne].
    - assert (x ∈ unseen_sources s) as Hin; [|by rewrite Hempty in Hin].
      apply (inv_unseen _ _ _ HI). split_and!; [done..|]. set_solver.
    - apply set_choose_L in Hne as [y Hy].
      apply elem_of_difference in Hy as [Hy HyD]. exfalso. apply HyD.
      apply IH; [by apply Hsync|]. by eapply (c_preds _ Hc). }
  assert (∀ x, Acc (edge s0) x) as Hacc.
  { intros x. change (sn (flip (edge s0)) x). apply tc_finite_sn.
    - intros y Hy. by apply tc_flip, Hacyc in Hy.
    - apply reachable_finite, tc_flip_edge_node. }
  apply set_eq. intros x. split.
  - intros Hx. by apply (inv_done _ _ _ HI) in Hx as [? _].
  - intros Hx. by apply Hall.
Qed.

(** Every path can be prolonged to a node without outgoing edges, and
    this does not make it lighter. *)
Lemma path_to_terminal p a :
  acyclic s0 → path s0 p → last p = Some a →
  ∃ p' t, path s0 p' ∧ last p' = Some t ∧ succs s0 t = ∅ ∧
          path_weight s0 p ≤ path_weight s0 p'.
Proof.
  intros Hacyc Hp Hl.
  assert (sn (edge s0) a) as Hacc.
  { apply tc_finite_sn; [intros y Hy; by apply Hacyc in Hy|].
    apply reachable_finite, tc_edge_node. }
  revert p Hp Hl. induction Hacc as [a _ IH]. intros p Hp Hl.
  destruct (decide (succs s0 a = ∅)) as [Hterm|Hne].
  - exists p, a. split_and!; [done..|lia].
  - apply set_choose_L in Hne as [b Hb].
    destruct (IH b Hb (p ++ [b])) as (p' & t & Hp' & Hl' & Ht & Hle).
    + eapply path_snoc; [done..|]. by eapply edge_target_node.
    + apply last_snoc.
    + exists p', t. split_and!; [done..|].
      rewrite path_weight_snoc in Hle.
      assert (0 ≤ weight_of s0 b); [|lia].
      unfold weight_of. destruct (nodes s0 !! b) as [w|] eqn:E; simpl; [|done].
      by eapply (c_weights _ Hc).
Qed.

(** From any state of the loop, some sequence of pops empties the frontier. *)
Lemma run_exists (k : nat) : ∀ D s,
  inv s0 D s → (size (dom (nodes s0) ∖ D) ≤ k)%nat →
  ∃ pops s', iterate pops s = Ret tt s' ∧ unseen_sources s' = ∅.
Proof.
  induction k as [|k IH]; intros D s HI Hk.
  - exists [], s. split; [done|]. apply set_eq. intros x. split; [|set_solver].
    intros (Hx & HxD & _)%(inv_unseen _ _ _ HI).
    assert (dom (nodes s0) ∖ D = ∅) as Hem by (apply size_zero_empty; lia).
    unfold is_node in Hx. set_solver.
  - destruct (decide (unseen_sources s = ∅)) as [He|Hne].
    + by exists [], s.
    + apply set_choose_L in Hne as [n Hn].
      destruct (inv_step s0 Hc Hsync D s n HI Hn) as (s1 & Hit & HI1).
      destruct (proj1 (inv_unseen _ _ _ HI n) Hn) as (Hnode & HnD & _).
      destruct (IH _ _ HI1) as (pops & s' & Hrun & He).
      { assert (dom (nodes s0) ∖ D = {[n]} ∪ dom (nodes s0) ∖ ({[n]} ∪ D)) as Heq.
        { apply set_eq. intros x. unfold is_node in Hnode.
          destruct (decide (x = n)); set_solver. }
        rewrite Heq, size_union, size_singleton in Hk by set_solver. lia. }
      exists (n :: pops), s'. simpl. rewrite decide_True by done.
      rewrite Hit. by split.
Qed.

Lemma while_loop_inv pops s' :
  acyclic s0 → while_loop pops s0 = Ret tt s' →
  inv s0 (dom (nodes s0)) s' ∧ unseen_sources s' = ∅ ∧
  iterate pops s0 = Ret tt s' ∧ NoDup pops ∧
  ∀ x, x ∈ pops ↔ is_node s0 x.
Proof.
  intros Hacyc Hrun. unfold while_loop in Hrun.
  destruct (iterate pops s0) as [[] s1|e s1|] eqn:Hit; [|done..].
  destruct (decide (size (unseen_sources s1) = 0%nat)) as [Hsz|]; [|done].
  simplify_eq. apply size_zero_empty in Hsz.
  destruct (iterate_inv pops ∅ s0 s' (inv_init s0 Hc Hsync) Hit) as (HI & Hnd & Hin).
  pose proof (frontier_empty_all_done _ _ Hacyc HI Hsz) as HD.
  split_and!; [by rewrite <- HD|done..|].
  intros x. split; [by intros [_ ?]%Hin|].
  unfold is_node. rewrite <- HD. set_solver.
Qed.

Lemma while_loop_exists :
  ∃ pops s', while_loop pops s0 = Ret tt s'.
Proof.
  destruct (run_exists (size (dom (nodes s0) ∖ ∅)) ∅ s0 (inv_init s0 Hc Hsync))
    as (pops & s' & Hrun & He); [done|].
  exists pops, s'. unfold while_loop. rewrite Hrun.
  rewrite decide_True; [done|]. by apply size_zero_empty.
Qed.

Lemma final_max s' :
  acyclic s0 → inv s0 (dom (nodes s0)) s' →
  max_path_weight s0 (longest_route_weight s').
Proof.
  intros Hacyc HI.
  assert (∀ p, path s0 p →
    ∃ w, longest_route_weight s' = Some w ∧ path_weight s0 p ≤ w) as Hub.
  { intros p Hp.
    destruct (last p) as [a|] eqn:Hl; [|apply last_None in Hl; by destruct Hp].
    destruct (path_to_terminal p a Hacyc Hp Hl) as (p' & t & Hp' & Hl' & Ht & Hle).
    destruct (inv_best_max _ _ _ HI p' t Hp' Hl') as (w & Hw & Hle'); [|done|].
    - by eapply path_last_node.
    - exists w. split; [done|lia]. }
  pose proof (inv_best _ _ _ HI) as Hb.
  destruct (longest_route_weight s') as [w|] eqn:Ew; simpl.
  - split.
    + destruct (longest_route s') as [r|]; [|done]. exists r. by destruct Hb.
    + intros p Hp. destruct (Hub p Hp) as (w' & ? & ?). by simplify_eq.
  - intros p Hp. by destruct (Hub p Hp) as (w' & ? & ?).
Qed.

End Run.
End Runs.

(** ** Synchronized views, acyclicity *)

Section Sync.
Context {L : Type} `{!EqDecision L, !Countable L}.
Implicit Types (s : state L) (a b n : L) (p q : list L) (ts D : gset L).
Local Open Scope Z_scope.

Lemma add_node_synchronized label weight s s' :
  constructed s → synchronized s → label ∉ dom (nodes s) →
  add_node label weight s = Ret tt s' → synchronized s'.
Proof.
  intros Hc Hs Hfresh Hr.
  apply add_node_inv in Hr as [[_ ?]|(Hw & s1 & ? & Hn & He & Hre & _)]; [done|].
  simplify_eq. intros a b. unfold succs, preds. rewrite He, Hre.
  rewrite !succs_insert by done.
  destruct (decide (label = a)) as [<-|Ha], (decide (label = b)) as [<-|Hb].
  - set_solver.
  - split; [set_solver|]. intros Hin. exfalso. apply Hfresh. by eapply (c_preds _ Hc).
  - split; [|set_solver]. intros Hin. exfalso. apply Hfresh. by eapply (c_succs _ Hc).
  - apply Hs.
Qed.

Lemma add_edge_synchronized source target s s' :
  synchronized s → add_edge source target s = Ret tt s' → synchronized s'.
Proof.
  intros Hs Hr. unfold add_edge in Hr.
  destruct (nodes s !! source) as [ws|] eqn:Es; [|done].
  destruct (nodes s !! target) as [wt|] eqn:Et; [|done].
  destruct (edges s !! source) as [ts|] eqn:Ets; [|done].
  simpl in Hr. destruct (rev_edges s !! target) as [ss|] eqn:Ess; [|done].
  simplify_eq. intros a b. unfold succs, preds. simpl.
  rewrite !succs_insert by done.
  pose proof (Hs a b) as Hab. pose proof (Hs source b) as Hsb.
  pose proof (Hs a target) as Hat. unfold succs, preds in Hab, Hsb, Hat.
  rewrite ?Ets, ?Ess in Hab, Hsb, Hat. simpl in *.
  destruct (decide (source = a)) as [<-|Ha], (decide (target = b)) as [<-|Hb].
  - set_solver.
  - rewrite Ets in Hab. simpl in Hab. set_solver.
  - rewrite Ess in Hab. simpl in Hab. set_solver.
  - done.
Qed.

Lemma exec_all_synchronized cs : ∀ s s',
  constructed s → synchronized s → NoDup (added_labels cs) →
  (∀ l, l ∈ added_labels cs → l ∉ dom (nodes s)) →
  exec_all cs s = Ret tt s' → synchronized s'.
Proof.
  induction cs as [|c cs IH]; intros s s' Hc Hs Hnd Hfresh Hr; simpl in *.
  - by simplify_eq.
  - destruct (exec c s) as [[] s1|e s1|] eqn:E; [|done..].
    destruct c as [label weight|source target]; simpl in *.
    + apply NoDup_cons in Hnd as [Hl Hnd].
      apply (IH s1 s'); [by eapply add_node_constructed| |done| |done].
      * eapply add_node_synchronized; [done..| |done]. apply Hfresh. by left.
      * intros l Hin. apply add_node_inv in E as [[_ ?]|(_ & s2 & Heq & Hn & _)]; [done|].
        simplify_eq. rewrite Hn, dom_insert_L. assert (l ∉ dom (nodes s)) by (apply Hfresh; by right).
        assert (l ≠ label) by (by intros ->). set_solver.
    + apply (IH s1 s'); [by eapply add_edge_constructed| |done| |done].
      * by eapply add_edge_synchronized.
      * intros l Hin. unfold add_edge in E.
        destruct (nodes s !! source); [|done]. destruct (nodes s !! target); [|done].
        destruct (edges s !! source); [|done]. simpl in E.
        destruct (rev_edges s !! target); [|done]. simplify_eq. simpl. by apply Hfresh.
Qed.

(** Calls that add every label at most once keep the two views in step. *)
Lemma build_synchronized cs s :
  NoDup (added_labels cs) → build cs = Ret tt s → synchronized s.
Proof.
  intros Hnd. apply exec_all_synchronized; [apply constructed_init| |done|].
  - intros a b. unfold succs, preds. simpl. by rewrite !lookup_empty.
  - intros l _. simpl. set_solver.
Qed.

(** Acyclicity from a ranking of the labels that every edge increases. *)
Lemma acyclic_by_rank (rank : L → nat) s :
  (∀ a b, edge s a b → (rank a < rank b)%nat) → acyclic s.
Proof.
  intros Hrank.
  assert (∀ a b, tc (edge s) a b → (rank a < rank b)%nat) as Htc.
  { induction 1 as [x y He|x y z He _ IH]; [by apply Hrank|].
    apply Hrank in He. lia. }
  intros a Ha. apply Htc in Ha. lia.
Qed.

(** A ranking checked edge by edge is a ranking. *)
Lemma ranked_acyclic rank s : ranked rank s = true → acyclic s.
Proof.
  intros Hr. apply (acyclic_by_rank rank). intros a b He.
  unfold edge, succs in He. destruct (edges s !! a) as [ts|] eqn:E; [|set_solver].
  simpl in He. unfold ranked in Hr. rewrite forallb_forall in Hr.
  specialize (Hr (a, ts)). simpl in Hr. rewrite forallb_forall in Hr.
  eapply bool_decide_eq_true_1, Hr.
  - apply list_elem_of_In. by apply elem_of_map_to_list.
  - apply list_elem_of_In. by apply elem_of_elements.
Qed.

End Sync.

(** ** Auxiliary facts *)

Section Results.
Context {L : Type} `{!EqDecision L, !Countable L}.
Implicit Types (s : state L) (a b n : L) (p q : list L) (ts D : gset L).
Local Open Scope Z_scope.

Lemma longest_path_ret pops s res s' :
  longest_path pops s = Ret res s' →
  while_loop pops s = Ret tt s' ∧
  res = (longest_route s', longest_route_weight s').
Proof.
  unfold longest_path. destruct (while_loop pops s) as [[] s1|e s1|]; [|done..].
  intros. by simplify_eq.
Qed.

Lemma while_loop_ret pops s s' :
  while_loop pops s = Ret tt s' →
  iterate pops s = Ret tt s' ∧ unseen_sources s' = ∅.
Proof.
  unfold while_loop. destruct (iterate pops s) as [[] s1|e s1|]; [|done..].
  case_decide as Hsz; [|done]. intros. simplify_eq. by apply size_zero_empty in Hsz.
Qed.

Lemma iterate_app pops1 pops2 s :
  iterate (pops1 ++ pops2) s =
  match iterate pops1 s with
  | Ret _ s1 => iterate pops2 s1
  | r => r
  end.
Proof.
  revert s. induction pops1 as [|n pops1 IH]; intros s; simpl; [done|].
  case_decide; [|done]. destruct (iteration n s) as [[] s1|e s1|]; [apply IH|done..].
Qed.

Lemma exec_all_app (cs1 cs2 : list (call L)) s s' :
  exec_all (cs1 ++ cs2) s = Ret tt s' →
  ∃ s1, exec_all cs1 s = Ret tt s1 ∧ exec_all cs2 s1 = Ret tt s'.
Proof.
  revert s. induction cs1 as [|c cs1 IH]; intros s; simpl; [by exists s|].
  destruct (exec c s) as [[] s1|e s1|]; [apply IH|done..].
Qed.

(** With an empty frontier [longest_path] pops nothing and returns what
    the object holds. *)
Lemma longest_path_frontier_empty pops s res s' :
  unseen_sources s = ∅ → longest_path pops s = Ret res s' →
  pops = [] ∧ s' = s ∧ res = (longest_route s, longest_route_weight s).
Proof.
  intros He [[Hit _]%while_loop_ret ->]%longest_path_ret.
  destruct pops as [|n pops]; simpl in Hit.
  - by simplify_eq.
  - rewrite decide_False in Hit; [done|]. rewrite He. set_solver.
Qed.

Lemma max_path_weight_unique s w1 w2 :
  max_path_weight s w1 → max_path_weight s w2 → w1 = w2.
Proof.
  destruct w1 as [w1|], w2 as [w2|]; simpl; [| | |done].
  - intros [(p1 & Hp1 & <-) Hub1] [(p2 & Hp2 & <-) Hub2].
    f_equal. apply Hub2 in Hp1. apply Hub1 in Hp2. lia.
  - intros [(p1 & Hp1 & _) _] Hno. by apply Hno in Hp1.
  - intros Hno [(p2 & Hp2 & _) _]. by apply Hno in Hp2.
Qed.

(** A run of [longest_path] either pops nothing, the frontier being empty,
    or pops a label of the frontier and goes on from the state that the
    iteration leaves. *)
Lemma longest_path_pops pops s res s' :
  longest_path pops s = Ret res s' →
  (pops = [] ∧ unseen_sources s = ∅) ∨
  ∃ n pops' s1, pops = n :: pops' ∧ n ∈ unseen_sources s ∧
    iteration n s = Ret tt s1 ∧ longest_path pops' s1 = Ret res s'.
Proof.
  destruct pops as [|n pops]; unfold longest_path, while_loop; simpl.
  - destruct (decide (size (unseen_sources s) = 0%nat)) as [Hsz|]; [|done].
    intros _. left. split; [done|]. by apply size_zero_empty.
  - destruct (decide (n ∈ unseen_sources s)) as [Hn|]; [|done].
    destruct (iteration n s) as [[] s1|e s1|] eqn:Hit; [|done..].
    intros Hrun. right. exists n, pops, s1. split_and!; [done..|]. exact Hrun.
Qed.

End Results.

(** ** Objects of any history *)

Section Robust.
Context {L : Type} `{!EqDecision L, !Countable L}.
Implicit Types (s : state L) (a b n : L) (p q : list L) (ts D : gset L).
Local Open Scope Z_scope.

Lemma coherent_init : coherent (init (L:=L)).
Proof.
  unfold coherent. simpl. split_and!; try done.
  all: try (split; intros [r Hr]; done).
Qed.

Lemma coherent_add_node label weight s s' :
  coherent s → add_node label weight s = Ret tt s' → coherent s'.
Proof.
  intros (He & Hr & Hs & Hu & Hw & Hb) Hrun.
  apply add_node_inv in Hrun
    as [[_ ?]|(Hpos & s1 & Heq & Hn & Hed & Hre & Hun & _ & _ & Hlr & Hlw)]; [done|].
  simplify_eq. unfold coherent, is_node, succs in *.
  rewrite Hn, Hed, Hre, Hun, Hlr, Hlw, !dom_insert_L. split_and!.
  - congruence.
  - congruence.
  - intros a b. rewrite succs_insert by done. case_decide; [set_solver|].
    intros Hin%Hs. set_solver.
  - set_solver.
  - intros a w. rewrite lookup_insert. case_decide; [|by eauto].
    intros Heq. by simplify_eq.
  - done.
Qed.

Lemma coherent_add_edge source target s s' :
  coherent s → add_edge source target s = Ret tt s' → coherent s'.
Proof.
  intros (He & Hr & Hs & Hu & Hw & Hb) Hrun. unfold add_edge in Hrun.
  destruct (nodes s !! source) as [ws|] eqn:Es; [|done].
  destruct (nodes s !! target) as [wt|] eqn:Et; [|done].
  destruct (edges s !! source) as [ts|] eqn:Ets; [|done].
  simpl in Hrun. destruct (rev_edges s !! target) as [ss|] eqn:Ess; [|done].
  simplify_eq. apply elem_of_dom_2 in Et.
  pose proof (elem_of_dom_2 _ _ _ Ets) as Hds.
  pose proof (elem_of_dom_2 _ _ _ Ess) as Hdt.
  unfold coherent, is_node, succs in *. simpl. rewrite !dom_insert_L. split_and!.
  - set_solver.
  - set_solver.
  - intros a b. rewrite succs_insert by done. case_decide as Ha.
    + subst a. intros [Hb'|Hb']%elem_of_union; [set_solver|].
      apply (Hs source). by rewrite Ets.
    + apply Hs.
  - set_solver.
  - done.
  - done.
Qed.

(** One iteration from a coherent state: it does not raise, the state stays
    coherent, the bound decreases and the global best does not. *)
Lemma coherent_step n s :
  coherent s → n ∈ unseen_sources s →
  ∃ s', iteration n s = Ret tt s' ∧ coherent s' ∧
        (potential s' < potential s)%nat ∧
        (∀ best, longest_route_weight s = Some best →
           ∃ best', longest_route_weight s' = Some best' ∧ best ≤ best').
Proof.
  intros (He & Hr & Hs & Hu & Hw & Hb) Hn.
  assert (n ∈ dom (nodes s)) as Hnd by set_solver.
  pose proof Hnd as Hne. rewrite <- He in Hne.
  apply elem_of_dom in Hnd as [w Hwn], Hne as [ts Hts].
  assert (succs s n = ts) as Hsn by (unfold succs; by rewrite Hts).
  destruct (iteration_spec n w ts s Hwn Hts) as (s' & Hrun & HP); [|apply Hb|].
  { intros t Ht. apply elem_of_dom. rewrite Hr. apply (Hs n). by rewrite Hsn. }
  exists s'. split; [done|].
  assert (∀ a, succs s' a = if decide (n = a) then ∅ else succs s a) as Hsucc.
  { intros a. unfold succs. rewrite (ip_edges _ _ _ _ _ HP).
    rewrite lookup_insert. by case_decide. }
  assert (dom (edges s') = dom (edges s)) as Hde.
  { rewrite (ip_edges _ _ _ _ _ HP), dom_insert_L.
    apply elem_of_dom_2 in Hts. set_solver. }
  assert (unseen_sources s' ⊆ dom (nodes s)) as Hu'.
  { intros x [[Hx _]|[Hx _]]%(ip_unseen _ _ _ _ _ HP); [by apply Hu|].
    apply (Hs n). by rewrite Hsn. }
  pose proof (ip_best _ _ _ _ _ HP) as Hbest.
  split_and!.
  - unfold coherent, is_node. rewrite (ip_nodes _ _ _ _ _ HP). split_and!.
    + by rewrite Hde.
    + rewrite <- Hr. apply set_eq. intros x. rewrite !elem_of_dom.
      destruct (decide (x ∈ ts)) as [Hx|Hx].
      * rewrite (ip_rev_in _ _ _ _ _ HP) by done. by rewrite fmap_is_Some.
      * by rewrite (ip_rev_out _ _ _ _ _ HP).
    + intros a b. rewrite Hsucc. destruct (decide (n = a)); [|apply Hs].
      by intros ?%not_elem_of_empty.
    + done.
    + done.
    + destruct (decide (ts = ∅)); [destruct (improves s (new_weight_of n w s))|];
        injection Hbest as -> ->; [|done..]. split; by eauto.
  - unfold potential. rewrite (ip_nodes _ _ _ _ _ HP).
    destruct (decide (ts = ∅)) as [->|Hne].
    + assert (with_targets s' = with_targets s) as ->.
      { unfold with_targets. rewrite Hde. apply set_eq. intros x.
        rewrite !elem_of_filter, Hsucc. case_decide; [|done].
        subst x. rewrite Hsn. tauto. }
      assert (unseen_sources s = {[n]} ∪ unseen_sources s') as ->.
      { apply set_eq. intros x. rewrite elem_of_union, elem_of_singleton.
        rewrite (ip_unseen _ _ _ _ _ HP). destruct (decide (x = n)); set_solver. }
      rewrite size_union, size_singleton; [lia|].
      intros x ->%elem_of_singleton [[_ ?]|[? _]]%(ip_unseen _ _ _ _ _ HP); set_solver.
    + assert (with_targets s = {[n]} ∪ with_targets s') as ->.
      { apply set_eq. intros x. unfold with_targets.
        rewrite elem_of_union, elem_of_singleton, !elem_of_filter, Hde, Hsucc.
        destruct (decide (n = x)) as [<-|Hx].
        - split; [by left|]. intros _. rewrite Hsn. split; [done|].
          by apply elem_of_dom_2 in Hts.
        - split; [by right|]. intros [?|?]; [by subst|done]. }
      rewrite size_union, size_singleton.
      * apply subseteq_size in Hu'.
        assert (0 < size (unseen_sources s))%nat; [|lia].
        assert (({[n]} : gset L) ⊆ unseen_sources s) as Hsz%subseteq_size by set_solver.
        rewrite size_singleton in Hsz. lia.
      * intros x ->%elem_of_singleton. unfold with_targets.
        rewrite elem_of_filter, Hsucc, decide_True by done. by intros [? _].
  - intros best Hbw. unfold improves in Hbest. rewrite Hbw in Hbest.
    destruct (decide (ts = ∅)); [|injection Hbest as _ ->; exists best; split; [done|lia]].
    destruct (longest_route s) as [r|] eqn:Er.
    + destruct (Z.ltb_spec best (new_weight_of n w s)); injection Hbest as _ ->;
        eexists; (split; [done|lia]).
    + destruct (proj2 Hb) as [r Hr']; [by eexists|]. done.
Qed.

Lemma coherent_iterate pops : ∀ s,
  coherent s →
  match iterate pops s with
  | Ret _ s' =>
    coherent s' ∧ (length pops + potential s' ≤ potential s)%nat ∧
    ∀ best, longest_route_weight s = Some best →
      ∃ best', longest_route_weight s' = Some best' ∧ best ≤ best'
  | Raise _ _ => False
  | OffSchedule => True
  end.
Proof.
  induction pops as [|n pops IH]; intros s Hc; simpl.
  - split_and!; [done|lia|]. intros best ->. exists best. split; [done|lia].
  - destruct (decide (n ∈ unseen_sources s)) as [Hn|]; [|done].
    destruct (coherent_step n s Hc Hn) as (s1 & Hrun & Hc1 & Hpot & Hmono).
    rewrite Hrun. specialize (IH s1 Hc1).
    destruct (iterate pops s1) as [[] s'|e s'|]; [|done..].
    destruct IH as (Hc' & Hlen & Hmono').
    split_and!; [done|lia|].
    intros best (b1 & Hb1 & Hle1)%Hmono.
    destruct (Hmono' b1 Hb1) as (b2 & Hb2 & Hle2). exists b2. split; [done|lia].
Qed.

Lemma coherent_run_exists (k : nat) : ∀ s,
  coherent s → (potential s ≤ k)%nat →
  ∃ pops s', iterate pops s = Ret tt s' ∧ unseen_sources s' = ∅.
Proof.
  induction k as [|k IH]; intros s Hc Hk.
  - exists [], s. split; [done|]. apply size_zero_empty. unfold potential in Hk. lia.
  - destruct (decide (unseen_sources s = ∅)) as [He|Hne]; [by exists [], s|].
    apply set_choose_L in Hne as [n Hn].
    destruct (coherent_step n s Hc Hn) as (s1 & Hrun & Hc1 & Hpot & _).
    destruct (IH s1 Hc1) as (pops & s' & Hit & He); [lia|].
    exists (n :: pops), s'. simpl. rewrite decide_True by done. by rewrite Hrun.
Qed.

Lemma reachable_coherent s : reachable s → coherent s.
Proof.
  induction 1 as [|s label weight s' _ IH Hr|s source target s' _ IH Hr
                  |s pops r s' _ IH Hr].
  - apply coherent_init.
  - by eapply coherent_add_node.
  - by eapply coherent_add_edge.
  - apply longest_path_ret in Hr as [[Hit _]%while_loop_ret _].
    pose proof (coherent_iterate pops s IH) as Hci. rewrite Hit in Hci.
    by destruct Hci.
Qed.

End Robust.

(** ** Stored routes *)

Section Routes.
Context {L : Type} `{!EqDecision L, !Countable L}.
Implicit Types (s : state L) (a b n : L) (p q : list L) (ts D : gset L).
Local Open Scope Z_scope.

Lemma route_inv_init s0 : constructed s0 → route_inv s0 s0.
Proof.
  intros Hc. split; try done.
  - intros t w. by rewrite (c_in_weight _ Hc).
  - intros t _. by rewrite (c_in_route _ Hc).
  - by rewrite (c_route _ Hc), (c_route_weight _ Hc).
Qed.

Lemma route_inv_step s0 s n s' :
  coherent s → route_inv s0 s → n ∈ unseen_sources s →
  iteration n s = Ret tt s' → route_inv s0 s'.
Proof.
  intros Hc HR Hn Hrun.
  pose proof Hc as (He & Hr & Hs & Hu & Hw & Hb).
  assert (n ∈ dom (nodes s)) as Hnd by (by apply Hu).
  pose proof Hnd as Hne. rewrite <- He in Hne.
  assert (is_node s0 n) as Hnode
    by (unfold is_node; by rewrite <- (ri_nodes _ _ HR)).
  apply elem_of_dom in Hnd as [w Hwn], Hne as [ts Hts].
  assert (succs s n = ts) as Hsn by (unfold succs; by rewrite Hts).
  destruct (iteration_spec n w ts s Hwn Hts) as (s'' & Hrun' & HP); [|apply Hb|].
  { intros t Ht. apply elem_of_dom. rewrite Hr. apply (Hs n). by rewrite Hsn. }
  rewrite Hrun in Hrun'. injection Hrun' as <-.
  assert (weight_of s0 n = w) as Hwt
    by (unfold weight_of; by rewrite <- (ri_nodes _ _ HR), Hwn).
  assert (path s0 (new_route_of n s) ∧
          path_weight s0 (new_route_of n s) = new_weight_of n w s ∧
          last (new_route_of n s) = Some n) as (Hpath & Hweight & Hlast).
  { unfold new_route_of, new_weight_of.
    destruct (longest_in_weight s !! n) as [w'|] eqn:E.
    - apply (ri_in_some _ _ HR) in E as (r & a & -> & Hr' & <- & Hl & Hed). simpl.
      split_and!; [by eapply path_snoc|rewrite path_weight_snoc; lia|apply last_snoc].
    - rewrite (ri_in_none _ _ HR) by done. simpl.
      split_and!; [by apply path_singleton|lia|done]. }
  split.
  - by rewrite (ip_nodes _ _ _ _ _ HP), (ri_nodes _ _ HR).
  - intros a. unfold succs at 1. rewrite (ip_edges _ _ _ _ _ HP), lookup_insert.
    destruct (decide (n = a)); simpl; [|apply (ri_edges _ _ HR)].
    by intros x ?%not_elem_of_empty.
  - intros t w' Hw'.
    destruct (decide (t ∈ ts ∧ default 0 (longest_in_weight s !! t)
                               < new_weight_of n w s)) as [[Ht Hlt]|Hno].
    + destruct (ip_in_new _ _ _ _ _ HP t Ht Hlt) as [Hiw Hir].
      rewrite Hiw in Hw'. injection Hw' as <-.
      exists (new_route_of n s), n. split_and!; [done..|].
      apply (ri_edges _ _ HR n). by rewrite Hsn.
    + destruct (ip_in_old _ _ _ _ _ HP t Hno) as [Hiw Hir].
      rewrite Hiw in Hw'. rewrite Hir. by apply (ri_in_some _ _ HR).
  - intros t Hw'.
    destruct (decide (t ∈ ts ∧ default 0 (longest_in_weight s !! t)
                               < new_weight_of n w s)) as [[Ht Hlt]|Hno].
    + destruct (ip_in_new _ _ _ _ _ HP t Ht Hlt) as [Hiw Hir]. by rewrite Hiw in Hw'.
    + destruct (ip_in_old _ _ _ _ _ HP t Hno) as [Hiw Hir].
      rewrite Hiw in Hw'. rewrite Hir. by apply (ri_in_none _ _ HR).
  - pose proof (ip_best _ _ _ _ _ HP) as Hbest.
    pose proof (ri_best _ _ HR) as Hb0.
    destruct (decide (ts = ∅)); [destruct (improves s (new_weight_of n w s))|];
      injection Hbest as -> ->; try done; by split.
Qed.

Lemma route_inv_iterate s0 pops : ∀ s s',
  coherent s → route_inv s0 s → iterate pops s = Ret tt s' → route_inv s0 s'.
Proof.
  induction pops as [|n pops IH]; intros s s' Hc HR Hrun; simpl in *.
  - by simplify_eq.
  - destruct (decide (n ∈ unseen_sources s)) as [Hn|]; [|done].
    destruct (coherent_step n s Hc Hn) as (s1 & Hit & Hc1 & _).
    rewrite Hit in Hrun. apply (IH s1); [done| |done].
    apply (route_inv_step s0 s n s1 Hc HR Hn Hit).
Qed.

End Routes.

(** ** Cycles, routes and the order of the set loops *)

Section Cycles.
Context {L : Type} `{!EqDecision L, !Countable L}.
Implicit Types (s : state L) (a b n : L) (p q : list L) (ts D : gset L).
Local Open Scope Z_scope.

Lemma tc_pred (R : relation L) a b : tc R a b → ∃ c, rtc R a c ∧ R c b.
Proof.
  induction 1 as [a b Hab|a y b Hay _ (c & Hyc & Hcb)].
  - by exists a.
  - exists c. split; [by eapply rtc_l|done].
Qed.

(** Two positions of a path, the first before the second, are joined by a
    non-empty sequence of edges. *)
Lemma path_tc s p (j : nat) : ∀ (i : nat) a b,
  path s p → (i < j)%nat → p !! i = Some a → p !! j = Some b →
  tc (edge s) a b.
Proof.
  induction j as [|j IH]; intros i a b Hp Hij Ha Hb; [lia|].
  destruct (decide (i = j)) as [->|Hne].
  - apply tc_once. destruct Hp as (_ & _ & He). by eapply He.
  - destruct (lookup_lt_is_Some_2 p j) as [c Hc].
    { apply lookup_lt_Some in Hb. lia. }
    eapply tc_r; [eapply (IH i a c); [done|lia|done..]|].
    destruct Hp as (_ & _ & He). by eapply He.
Qed.

Lemma path_NoDup s p : acyclic s → path s p → NoDup p.
Proof.
  intros Hacyc Hp. apply NoDup_alt. intros i j x Hi Hj.
  destruct (Nat.lt_trichotomy i j) as [Hlt|[?|Hlt]]; [|done|].
  - exfalso. apply (Hacyc x). by eapply (path_tc s p j i).
  - exfalso. apply (Hacyc x). by eapply (path_tc s p i j).
Qed.

Section Run.
Variable s0 : state L.
Hypothesis Hc : constructed s0.
Hypothesis Hsync : synchronized s0.

(** A label on a cycle never enters the frontier. *)
Lemma iterate_no_cycle pops : ∀ D s s',
  inv s0 D s → (∀ x, x ∈ D → ¬ tc (edge s0) x x) →
  iterate pops s = Ret tt s' →
  ∀ x, x ∈ pops → ¬ tc (edge s0) x x.
Proof.
  induction pops as [|n pops IH]; intros D s s' HI HD Hrun x Hx; simpl in *.
  - by apply elem_of_nil in Hx.
  - destruct (decide (n ∈ unseen_sources s)) as [Hn|]; [|done].
    destruct (inv_step s0 Hc Hsync D s n HI Hn) as (s1 & Hit & HI1).
    rewrite Hit in Hrun.
    destruct (proj1 (inv_unseen _ _ _ HI n) Hn) as (Hnode & HnD & Hpre).
    assert (¬ tc (edge s0) n n) as Hnn.
    { intros (c & Hnc & Hcn)%tc_pred.
      assert (c ∈ D) as HcD by (apply Hpre; by apply Hsync).
      apply (HD c HcD). eapply tc_rtc_r; [by apply tc_once|done]. }
    apply elem_of_cons in Hx as [->|Hx]; [done|].
    eapply (IH _ _ _ HI1); [|done..].
    intros y [->%elem_of_singleton|Hy]%elem_of_union; auto.
Qed.

(** The finalised labels are closed under predecessors. *)
Lemma done_closed D s a b :
  inv s0 D s → rtc (edge s0) a b → b ∈ D → a ∈ D.
Proof.
  intros HI. induction 1 as [|a c b Hac _ IH]; [done|]. intros Hb.
  destruct (inv_done _ _ _ HI c (IH Hb)) as [_ Hsub].
  apply Hsub. by apply Hsync.
Qed.

(** The global best ends at a node without outgoing edges. *)
Lemma iterate_route_end pops : ∀ D s s',
  inv s0 D s →
  (∀ r, longest_route s = Some r → ∃ a, last r = Some a ∧ succs s0 a = ∅) →
  iterate pops s = Ret tt s' →
  ∀ r, longest_route s' = Some r → ∃ a, last r = Some a ∧ succs s0 a = ∅.
Proof.
  induction pops as [|n pops IH]; intros D s s' HI Hend Hrun; simpl in *.
  - by simplify_eq.
  - destruct (decide (n ∈ unseen_sources s)) as [Hn|]; [|done].
    destruct (inv_step s0 Hc Hsync D s n HI Hn) as (s1 & Hit & HI1).
    rewrite Hit in Hrun. apply (IH _ _ _ HI1); [|done].
    destruct (proj1 (inv_unseen _ _ _ HI n) Hn) as (Hnode & HnD & Hpre).
    destruct (node_lookups s0 Hc n Hnode) as (w & Hw & Hts & Hss).
    destruct (iteration_spec n w (succs s0 n) s) as (s1' & Hit' & HP).
    { by rewrite (inv_nodes _ _ _ HI). }
    { by rewrite (inv_edges _ _ _ HI), decide_False. }
    { intros t Ht. rewrite (inv_rev _ _ _ HI), fmap_is_Some.
      destruct (node_lookups s0 Hc t) as (? & _ & _ & ->); [|done].
      by eapply (c_succs _ Hc). }
    { pose proof (inv_best _ _ _ HI) as Hb. intros [r Hr]. rewrite Hr in Hb.
      by destruct (longest_route_weight s). }
    rewrite Hit in Hit'. simplify_eq.
    pose proof (ip_best _ _ _ _ _ HP) as Hbest.
    destruct (decide (succs s0 n = ∅)) as [He|];
      [destruct (improves s (new_weight_of n w s))|];
      injection Hbest as -> _; [|done..].
    intros r Hr. simplify_eq. exists n. split; [|done].
    unfold new_route_of. by rewrite last_snoc.
Qed.

End Run.
End Cycles.

Section Order.
Context {L : Type} `{!EqDecision L, !Countable L}.
Implicit Types (s : state L) (a b n : L) (p q : list L) (ts D : gset L).
Local Open Scope Z_scope.

Lemma relax_comm nw nr s x y :
  relax nw nr (relax nw nr s x) y = relax nw nr (relax nw nr s y) x.
Proof.
  destruct (decide (x = y)) as [->|Hxy]; [done|].
  unfold relax.
  destruct (Z.ltb_spec (default 0 (longest_in_weight s !! x)) nw) as [Hx|Hx];
  destruct (Z.ltb_spec (default 0 (longest_in_weight s !! y)) nw) as [Hy|Hy];
    simpl; rewrite ?lookup_insert_ne by done.
  - destruct (Z.ltb_spec (default 0 (longest_in_weight s !! x)) nw); [|lia].
    destruct (Z.ltb_spec (default 0 (longest_in_weight s !! y)) nw); [|lia].
    simpl. f_equal; by apply insert_insert_ne.
  - destruct (Z.ltb_spec (default 0 (longest_in_weight s !! x)) nw); [|lia].
    by destruct (Z.ltb_spec (default 0 (longest_in_weight s !! y)) nw); [lia|].
  - destruct (Z.ltb_spec (default 0 (longest_in_weight s !! y)) nw); [|lia].
    by destruct (Z.ltb_spec (default 0 (longest_in_weight s !! x)) nw); [lia|].
  - destruct (Z.ltb_spec (default 0 (longest_in_weight s !! x)) nw); [lia|].
    by destruct (Z.ltb_spec (default 0 (longest_in_weight s !! y)) nw); [lia|].
Qed.

Lemma foldl_relax_perm nw nr l1 l2 :
  l1 ≡ₚ l2 → ∀ s, foldl (relax nw nr) s l1 = foldl (relax nw nr) s l2.
Proof.
  induction 1 as [|x l1 l2 _ IH|x y l|l1 l2 l3 _ IH1 _ IH2]; intros s; simpl.
  - done.
  - apply IH.
  - by rewrite relax_comm.
  - by rewrite IH1.
Qed.

Lemma discard_rev_keys source t s s' :
  discard_rev source t s = Ret tt s' →
  ∀ x, is_Some (rev_edges s !! x) → is_Some (rev_edges s' !! x).
Proof.
  unfold discard_rev. destruct (rev_edges s !! t) as [ss|] eqn:E; [|done].
  intros ? x Hx. simplify_eq. simpl.
  destruct (decide (t = x)) as [->|]; [by rewrite lookup_insert_eq|].
  by rewrite lookup_insert_ne.
Qed.

Lemma discard_rev_comm source x y s :
  is_Some (rev_edges s !! x) → is_Some (rev_edges s !! y) →
  ∃ s1 s2 s', discard_rev source x s = Ret tt s1 ∧
              discard_rev source y s = Ret tt s2 ∧
              discard_rev source y s1 = Ret tt s' ∧
              discard_rev source x s2 = Ret tt s'.
Proof.
  intros [sx Hx] [sy Hy].
  destruct (decide (x = y)) as [->|Hxy].
  - simplify_eq. eexists _, _, _.
    split; [unfold discard_rev; by rewrite Hx|].
    split; [unfold discard_rev; by rewrite Hx|].
    unfold discard_rev. simpl. rewrite lookup_insert_eq. split; reflexivity.
  - eexists _, _, _.
    split; [unfold discard_rev; by rewrite Hx|].
    split; [unfold discard_rev; by rewrite Hy|].
    unfold discard_rev. simpl.
    rewrite (lookup_insert_ne _ x y), (lookup_insert_ne _ y x), Hx, Hy by done.
    split; [reflexivity|]. f_equal. f_equal.
    + by apply insert_insert_ne.
    + destruct (decide (size (sx ∖ {[source]}) = 0%nat));
        destruct (decide (size (sy ∖ {[source]}) = 0%nat)); set_solver.
Qed.

Lemma for_each_discard_rev_perm source l1 l2 :
  l1 ≡ₚ l2 → ∀ s,
  (∀ t, t ∈ l1 → is_Some (rev_edges s !! t)) →
  for_each (discard_rev source) l1 s = for_each (discard_rev source) l2 s.
Proof.
  induction 1 as [|x l1 l2 _ IH|x y l|l1 l2 l3 Hp IH1 _ IH2]; intros s Hl; simpl.
  - done.
  - destruct (discard_rev source x s) as [[] s1|e s1|] eqn:E; [|done..].
    apply IH. intros t Ht. eapply discard_rev_keys; [done|].
    apply Hl. by right.
  - destruct (discard_rev_comm source y x s) as (s1 & s2 & s' & -> & -> & -> & ->).
    + apply Hl. by left.
    + apply Hl. right. by left.
    + done.
  - rewrite IH1 by done. apply IH2. intros t Ht. apply Hl. by rewrite Hp.
Qed.

End Order.

Section KeepSync.
Context {L : Type} `{!EqDecision L, !Countable L}.
Implicit Types (s : state L) (a b n : L) (p q : list L) (ts D : gset L).
Local Open Scope Z_scope.

Lemma iteration_synchronized n s s' :
  coherent s → synchronized s → n ∈ unseen_sources s →
  iteration n s = Ret tt s' → synchronized s'.
Proof.
  intros Hc Hsy Hn Hrun.
  pose proof Hc as (He & Hr & Hs & Hu & Hw & Hb).
  assert (n ∈ dom (nodes s)) as Hnd by (by apply Hu).
  pose proof Hnd as Hne. rewrite <- He in Hne.
  apply elem_of_dom in Hnd as [w Hwn], Hne as [ts Hts].
  assert (succs s n = ts) as Hsn by (unfold succs; by rewrite Hts).
  destruct (iteration_spec n w ts s Hwn Hts) as (s'' & Hrun' & HP); [|apply Hb|].
  { intros t Ht. apply elem_of_dom. rewrite Hr. apply (Hs n). by rewrite Hsn. }
  rewrite Hrun in Hrun'. injection Hrun' as <-. subst ts.
  intros a b.
  assert (succs s' a = if decide (n = a) then ∅ else succs s a) as ->.
  { unfold succs. rewrite (ip_edges _ _ _ _ _ HP), lookup_insert.
    by destruct (decide (n = a)). }
  assert (preds s' b =
          if decide (b ∈ succs s n) then preds s b ∖ {[n]} else preds s b) as ->.
  { unfold preds at 1. destruct (decide (b ∈ succs s n)) as [Hin|Hout].
    - rewrite (ip_rev_in _ _ _ _ _ HP) by done. unfold preds.
      destruct (rev_edges s !! b); simpl; [done|].
      apply set_eq. intros x. rewrite elem_of_difference.
      split; [by intros ?%not_elem_of_empty|by intros [?%not_elem_of_empty _]].
    - by rewrite (ip_rev_out _ _ _ _ _ HP). }
  destruct (decide (n = a)) as [<-|Hna].
  - split; [by intros ?%not_elem_of_empty|].
    destruct (decide (b ∈ succs s n)) as [Hin|Hout].
    + intros [_ Hx]%elem_of_difference. exfalso. apply Hx. by apply elem_of_singleton.
    + by intros Hx%Hsy.
  - pose proof (Hsy a b) as Hab. destruct (decide (b ∈ succs s n)); [|done].
    rewrite elem_of_difference, elem_of_singleton. naive_solver.
Qed.

Lemma iterate_synchronized pops : ∀ s s',
  coherent s → synchronized s → iterate pops s = Ret tt s' → synchronized s'.
Proof.
  induction pops as [|n pops IH]; intros s s' Hc Hsy Hrun; simpl in *.
  - by simplify_eq.
  - destruct (decide (n ∈ unseen_sources s)) as [Hn|]; [|done].
    destruct (coherent_step n s Hc Hn) as (s1 & Hit & Hc1 & _).
    rewrite Hit in Hrun. apply (IH s1); [done| |done].
    apply (iteration_synchronized n s s1 Hc Hsy Hn Hit).
Qed.

End KeepSync.

(** ** The scenarios *)

Lemma main_graph_built : build main_calls = Ret tt main_graph.
Proof. vm_compute. reflexivity. Qed.

Lemma main_graph_synchronized : synchronized main_graph.
Proof.
  eapply build_synchronized; [|apply main_graph_built].
  apply (bool_decide_unpack _). vm_compute. exact I.
Qed.

Lemma main_graph_acyclic : acyclic main_graph.
Proof. apply (ranked_acyclic id). vm_compute. reflexivity. Qed.

(** Two pop orders of the scenario: the same weight, different routes. *)
Example main_run_ascending :
  ∃ s', longest_path [0; 1; 2; 3; 4; 5]%nat main_graph
        = Ret (Some [1; 2; 5]%nat, Some 8) s'.
Proof. eexists. vm_compute. reflexivity. Qed.

Example main_run_descending :
  ∃ s', longest_path [3; 1; 2; 5; 4; 0]%nat main_graph
        = Ret (Some [3; 5]%nat, Some 8) s'.
Proof. eexists. vm_compute. reflexivity. Qed.

Lemma edge_graph_built : build edge_calls = Ret tt edge_graph.
Proof. vm_compute. reflexivity. Qed.

Lemma edge_graph_synchronized : synchronized edge_graph.
Proof.
  eapply build_synchronized; [|apply edge_graph_built].
  apply (bool_decide_unpack _). vm_compute. exact I.
Qed.

Lemma edge_graph_acyclic : acyclic edge_graph.
Proof. apply (ranked_acyclic id). vm_compute. reflexivity. Qed.

Lemma edge_graph_run :
  longest_path [1; 2]%nat edge_graph
  = Ret (Some [1; 2]%nat, Some 3) edge_graph_done.
Proof. vm_compute. reflexivity. Qed.

Lemma readd_graph_built : build readd_calls = Ret tt readd_graph.
Proof. vm_compute. reflexivity. Qed.

(** After the repeated [add_node] the traversal sees label 1 as a node
    without outgoing edges and never reaches label 2. *)
Example readd_longest_path :
  ∃ s', longest_path [1%nat] readd_graph = Ret (Some [1%nat], Some 1) s' ∧
        path_weight readd_graph [2%nat] = 2.
Proof. eexists. split; vm_compute; reflexivity. Qed.

Lemma readd_graph_acyclic : acyclic readd_graph.
Proof. apply (ranked_acyclic id). vm_compute. reflexivity. Qed.

(** The graph with the repeated [add_node] has one run only: it pops
    label 1 and returns it. *)
Lemma readd_graph_runs pops res s' :
  longest_path pops readd_graph = Ret res s' →
  pops = [1%nat] ∧ res = (Some [1%nat], Some 1).
Proof.
  intros [[_ He]|(n & pops' & s1 & -> & Hn & Hit & Hrun)]%longest_path_pops.
  - assert (1%nat ∈ unseen_sources readd_graph) as Hin
      by (apply (bool_decide_unpack _); vm_compute; exact I).
    rewrite He in Hin. by apply not_elem_of_empty in Hin.
  - assert (unseen_sources readd_graph = {[1%nat]}) as Hu
      by (vm_compute; reflexivity).
    rewrite Hu in Hn. apply elem_of_singleton in Hn as ->.
    vm_compute in Hit. injection Hit as <-.
    apply longest_path_frontier_empty in Hrun as (-> & _ & ->);
      [|vm_compute; reflexivity].
    split; [done|]. vm_compute. reflexivity.
Qed.

Lemma relink_graph_built : build relink_calls = Ret tt relink_graph.
Proof. vm_compute. reflexivity. Qed.

Lemma relink_graph_acyclic : acyclic relink_graph.
Proof. apply (ranked_acyclic id). vm_compute. reflexivity. Qed.

(** Two pop orders of this graph: different weights, and label 2 popped
    twice in the second. *)
Example relink_run_chain :
  ∃ s', longest_path [1; 2; 3]%nat relink_graph
        = Ret (Some [1; 2; 3]%nat, Some 7) s'.
Proof. eexists. vm_compute. reflexivity. Qed.

Example relink_run_twice :
  ∃ s', longest_path [2; 3; 1; 2]%nat relink_graph
        = Ret (Some [1; 2]%nat, Some 6) s'.
Proof. eexists. vm_compute. reflexivity. Qed.

(** * The claims *)

Section Claims.
Context {L : Type} `{!EqDecision L, !Countable L}.
Implicit Types (s : state L) (a b n : L) (p q : list L) (ts D : gset L).
Local Open Scope Z_scope.

(** C1, as the code has it: for an acyclic graph built by construction
    calls whose forward and reverse view describe the same edges,
    [longest_path] returns, and the weight it returns is the largest
    weight of a directed path of the graph (no weight when the graph has no
    node, hence no path).  Without the agreement of the two views the
    returned weight can be smaller. *)
Theorem longest_path_max_weight (cs : list (call L)) s0 :
  build cs = Ret tt s0 → synchronized s0 → acyclic s0 →
  (∃ pops r w s', longest_path pops s0 = Ret (r, w) s') ∧
  (∀ pops r w s',
     longest_path pops s0 = Ret (r, w) s' → max_path_weight s0 w).
Proof.
  intros Hb Hs Ha. pose proof (build_constructed _ _ Hb) as Hc. split.
  - destruct (while_loop_exists s0 Hc Hs) as (pops & s' & Hrun).
    exists pops, (longest_route s'), (longest_route_weight s'), s'.
    unfold longest_path. by rewrite Hrun.
  - intros pops r w s' [Hrun Heq]%longest_path_ret. simplify_eq.
    destruct (while_loop_inv s0 Hc Hs pops s' Ha Hrun) as (HI & _).
    by apply final_max.
Qed.

(** C2: for every graph built by construction calls, acyclic or not and
    whether or not its two views agree, a returned route is a non-empty
    sequence of nodes in which consecutive labels are joined by an edge of
    the graph as it was before the call, and the returned weight is the sum
    of its node weights. *)
Theorem longest_path_route_valid (cs : list (call L)) s0 pops route w s' :
  build cs = Ret tt s0 →
  longest_path pops s0 = Ret (Some route, w) s' →
  route ≠ [] ∧ (∀ a, a ∈ route → is_node s0 a) ∧
  (∀ (i : nat) a b,
     route !! i = Some a → route !! S i = Some b → b ∈ succs s0 a) ∧
  w = Some (path_weight s0 route).
Proof.
  intros Hb [[Hit _]%while_loop_ret Heq]%longest_path_ret.
  pose proof (build_constructed _ _ Hb) as Hc.
  pose proof (reachable_coherent _ (build_reachable _ _ Hb)) as Hco.
  pose proof (route_inv_iterate s0 pops s0 s' Hco (route_inv_init s0 Hc) Hit)
    as HR.
  pose proof (ri_best _ _ HR) as Hbest.
  injection Heq as Hr Hw. rewrite <- Hr, <- Hw in Hbest.
  destruct w as [w|]; [|done].
  destruct Hbest as [(Hne & Hn & He) <-]. by split_and!.
Qed.

(** C3, as the code has it: for an acyclic graph built by construction
    calls whose forward and reverse view describe the same edges, after
    [longest_path] has returned the frontier and all adjacency sets are
    empty, the node store is as before, the returned route and weight are
    the best that the object stores, and a further call pops nothing,
    returns the same route and weight again and leaves the object as it
    is. *)
Theorem longest_path_consumes_edges (cs : list (call L)) s0 pops res s1 :
  build cs = Ret tt s0 → synchronized s0 → acyclic s0 →
  longest_path pops s0 = Ret res s1 →
  unseen_sources s1 = ∅ ∧
  (∀ a, succs s1 a = ∅) ∧ (∀ a, preds s1 a = ∅) ∧
  nodes s1 = nodes s0 ∧
  res = (longest_route s1, longest_route_weight s1) ∧
  longest_path [] s1 = Ret res s1 ∧
  (∀ pops2 res2 s2,
     longest_path pops2 s1 = Ret res2 s2 → pops2 = [] ∧ res2 = res ∧ s2 = s1).
Proof.
  intros Hb Hs Ha [Hrun ->]%longest_path_ret.
  pose proof (build_constructed _ _ Hb) as Hc.
  destruct (while_loop_inv s0 Hc Hs pops s1 Ha Hrun) as (HI & He & _).
  split_and!.
  - done.
  - intros a. unfold succs. rewrite (inv_edges _ _ _ HI).
    destruct (decide (a ∈ dom (nodes s0))) as [|Hna].
    + by destruct (edges s0 !! a).
    + rewrite <- (c_edges_dom _ Hc) in Hna. by apply not_elem_of_dom in Hna as ->.
  - intros a. unfold preds. rewrite (inv_rev _ _ _ HI).
    destruct (rev_edges s0 !! a) as [ss|] eqn:E; simpl; [|done].
    apply set_eq. intros x. split; [|set_solver].
    intros [Hx Hno]%elem_of_difference. exfalso. apply Hno.
    apply (c_preds _ Hc x a). unfold preds. by rewrite E.
  - apply (inv_nodes _ _ _ HI).
  - done.
  - unfold longest_path, while_loop. simpl.
    rewrite decide_True; [done|]. by apply size_zero_empty.
  - intros pops2 res2 s2 (-> & -> & ->)%longest_path_frontier_empty; done.
Qed.

(** C4, as the code has it: in a sequence of construction calls on a fresh
    object that passes no label to [add_node] more than once, the forward
    and the reverse view describe the same edges after every call of the
    sequence. *)
Theorem views_synchronized (cs1 cs2 : list (call L)) s :
  NoDup (added_labels (cs1 ++ cs2)) → build (cs1 ++ cs2) = Ret tt s →
  ∃ s1, build cs1 = Ret tt s1 ∧ synchronized s1 ∧ synchronized s.
Proof.
  intros Hnd Hb. pose proof Hb as Hb'. apply exec_all_app in Hb as (s1 & H1 & _).
  exists s1. split; [done|]. split; [|by eapply build_synchronized].
  eapply build_synchronized; [|done].
  unfold added_labels in *. rewrite omap_app in Hnd. by apply NoDup_app in Hnd as [? _].
Qed.

(** C5: a negative weight makes [add_node] raise the [ValueError] for
    weights (the specification's InvalidWeight) and leaves the object as it
    was. *)
Theorem add_node_negative_weight s label weight :
  weight < 0 → add_node label weight s = Raise InvalidWeight s.
Proof. intros Hw. unfold add_node. by destruct (Z.ltb_spec weight 0); [|lia]. Qed.

(** C6: [add_edge] with an unregistered endpoint raises the [ValueError]
    that names which endpoint and which label is missing (the source is
    checked first) and leaves the object as it was; with both endpoints
    registered it succeeds. *)
Theorem add_edge_unknown_node s source target :
  reachable s →
  (nodes s !! source = None →
   add_edge source target s = Raise (UnknownNode Source source) s) ∧
  (is_Some (nodes s !! source) → nodes s !! target = None →
   add_edge source target s = Raise (UnknownNode Target target) s) ∧
  (is_Some (nodes s !! source) → is_Some (nodes s !! target) →
   ∃ s', add_edge source target s = Ret tt s').
Proof.
  intros [He Hr]%reachable_same_keys. unfold add_edge. split_and!.
  - by intros ->.
  - by intros [ws ->] ->.
  - intros Hs Ht. pose proof Hs as [ws ->]. pose proof Ht as [wt ->].
    apply elem_of_dom in Hs, Ht. rewrite <- He in Hs. rewrite <- Hr in Ht.
    apply elem_of_dom in Hs as [ts ->], Ht as [ss Hss]. simpl. rewrite Hss. by eexists.
Qed.

(** C7: when the node being finalised has no outgoing edges, the global
    best becomes its route and weight if there is no global best yet or
    the best weight is strictly smaller; otherwise, and in particular when
    the weights are equal, the global best is kept. *)
Theorem terminal_updates_best n w ts s :
  nodes s !! n = Some w → edges s !! n = Some ts → size ts = 0%nat →
  (is_Some (longest_route s) → is_Some (longest_route_weight s)) →
  ∃ s', iteration n s = Ret tt s' ∧
    ((longest_route s = None ∨
      ∃ best, longest_route_weight s = Some best ∧
              best < new_weight_of n w s) →
     longest_route s' = Some (new_route_of n s) ∧
     longest_route_weight s' = Some (new_weight_of n w s)) ∧
    (∀ r best, longest_route s = Some r →
       longest_route_weight s = Some best → new_weight_of n w s ≤ best →
       longest_route s' = Some r ∧ longest_route_weight s' = Some best).
Proof.
  intros Hw Hts Hsz Hcoh. unfold iteration. simpl. rewrite Hw, Hts.
  rewrite decide_True by done.
  change (new_weight_of n w (popped n s)) with (new_weight_of n w s).
  change (new_route_of n (popped n s)) with (new_route_of n s).
  destruct (longest_route s) as [r|] eqn:Er.
  - destruct Hcoh as [best Hbest]; [done|]. rewrite Hbest.
    destruct (Z.ltb_spec best (new_weight_of n w s)) as [Hlt|Hge];
      eexists; (split; [done|]); simpl; split.
    + done.
    + intros r' best' ? ? ?. simplify_eq. lia.
    + intros [?|(best' & ? & ?)]; [done|]. simplify_eq. lia.
    + intros r' best' ? ? ?. by simplify_eq.
  - eexists. split; [done|]. simpl. split; [done|]. intros r' best' ?. done.
Qed.

(** C8, as the code has it: on an acyclic graph built by construction
    calls whose forward and reverse view describe the same edges
    [longest_path] terminates: a complete run exists, no run raises, no run
    pops a label twice or more labels than there are nodes, every partial
    run can be continued until the frontier is empty, and a complete run
    pops every node exactly once. *)
Theorem longest_path_terminates (cs : list (call L)) s0 :
  build cs = Ret tt s0 → synchronized s0 → acyclic s0 →
  (∃ pops res s', longest_path pops s0 = Ret res s') ∧
  (∀ pops e s', iterate pops s0 ≠ Raise e s') ∧
  (∀ pops s', iterate pops s0 = Ret tt s' →
     NoDup pops ∧ (length pops ≤ size (dom (nodes s0)))%nat ∧
     ∃ pops' res s'', longest_path (pops ++ pops') s0 = Ret res s'') ∧
  (∀ pops res s', longest_path pops s0 = Ret res s' →
     pops ≡ₚ elements (dom (nodes s0))).
Proof.
  intros Hb Hs Ha. pose proof (build_constructed _ _ Hb) as Hc. split_and!.
  - destruct (while_loop_exists s0 Hc Hs) as (pops & s' & Hrun).
    exists pops, (longest_route s', longest_route_weight s'), s'.
    unfold longest_path. by rewrite Hrun.
  - intros pops e s'. eapply iterate_no_raise; [done..|]. by apply inv_init.
  - intros pops s' Hit.
    destruct (iterate_inv s0 Hc Hs pops ∅ s0 s' (inv_init s0 Hc Hs) Hit)
      as (HI & Hnd & Hin).
    split_and!; [done| |].
    + rewrite <- (size_list_to_set (C:=gset L)) by done.
      apply subseteq_size. intros x Hx%elem_of_list_to_set. by apply Hin in Hx as [_ ?].
    + destruct (run_exists s0 Hc Hs (size (dom (nodes s0) ∖ (list_to_set pops ∪ ∅)))
                  _ s' HI) as (pops' & s'' & Hit' & He); [done|].
      exists pops', (longest_route s'', longest_route_weight s''), s''.
      unfold longest_path, while_loop. rewrite iterate_app, Hit, Hit'.
      rewrite decide_True; [done|]. by apply size_zero_empty.
  - intros pops res s' [Hrun _]%longest_path_ret.
    destruct (while_loop_inv s0 Hc Hs pops s' Ha Hrun) as (_ & _ & _ & Hnd & Hin).
    apply NoDup_Permutation; [done|apply NoDup_elements|].
    intros x. rewrite Hin. unfold is_node. by rewrite elem_of_elements.
Qed.

(** C9, as the code has it: on an acyclic graph built by construction
    calls whose forward and reverse view describe the same edges, two runs
    that pop the frontier in different orders return the same weight; the
    routes they return are both paths of the graph, of that same weight. *)
Theorem longest_path_order_independent (cs : list (call L)) s0
    pops1 pops2 r1 w1 s1 r2 w2 s2 :
  build cs = Ret tt s0 → synchronized s0 → acyclic s0 →
  longest_path pops1 s0 = Ret (r1, w1) s1 →
  longest_path pops2 s0 = Ret (r2, w2) s2 →
  w1 = w2 ∧
  (∀ route1 route2, r1 = Some route1 → r2 = Some route2 →
     path s0 route1 ∧ path s0 route2 ∧
     path_weight s0 route1 = path_weight s0 route2).
Proof.
  intros Hb Hs Ha [Hrun1 Heq1]%longest_path_ret [Hrun2 Heq2]%longest_path_ret.
  pose proof (build_constructed _ _ Hb) as Hc.
  destruct (while_loop_inv s0 Hc Hs pops1 s1 Ha Hrun1) as (HI1 & _).
  destruct (while_loop_inv s0 Hc Hs pops2 s2 Ha Hrun2) as (HI2 & _).
  injection Heq1 as -> ->. injection Heq2 as -> ->.
  assert (longest_route_weight s1 = longest_route_weight s2) as Hw.
  { eapply max_path_weight_unique; by apply final_max. }
  split; [done|]. intros route1 route2 Hr1 Hr2.
  pose proof (inv_best _ _ _ HI1) as Hb1. pose proof (inv_best _ _ _ HI2) as Hb2.
  rewrite Hr1 in Hb1. rewrite Hr2 in Hb2.
  destruct (longest_route_weight s1) as [w1|]; [|done].
  destruct (longest_route_weight s2) as [w2|]; [|done].
  destruct Hb1 as [? ?], Hb2 as [? ?]. simplify_eq. by split_and!.
Qed.

(** C10: however [longest_path] ends, the node store is what it was before
    the call: no label is removed and no weight is changed. *)
Theorem longest_path_keeps_nodes pops s s' :
  state_of (longest_path pops s) = Some s' → nodes s' = nodes s.
Proof. by intros (? & _)%longest_path_frame. Qed.

End Claims.

(** * The claims on concrete graphs *)

Lemma longest_path_max_weight_witness :
  (∃ pops r w s', longest_path pops main_graph = Ret (r, w) s') ∧
  (∀ pops r w s',
     longest_path pops main_graph = Ret (r, w) s' → max_path_weight main_graph w).
Proof.
  exact (longest_path_max_weight main_calls main_graph main_graph_built
           main_graph_synchronized main_graph_acyclic).
Defined.

(** C1 as stated fails: the graph with the repeated [add_node] is built by
    construction calls and acyclic, every run on it returns the weight 1,
    and its path [2] weighs 2. *)
Lemma readd_weight_not_maximal :
  build readd_calls = Ret tt readd_graph ∧ acyclic readd_graph ∧
  (∃ s', longest_path [1%nat] readd_graph = Ret (Some [1%nat], Some 1) s') ∧
  (∀ pops r w s', longest_path pops readd_graph = Ret (r, w) s' → w = Some 1) ∧
  path readd_graph [2%nat] ∧ path_weight readd_graph [2%nat] = 2 ∧
  ¬ max_path_weight readd_graph (Some 1).
Proof.
  assert (path readd_graph [2%nat]) as Hpath.
  { apply path_singleton. unfold is_node.
    apply (bool_decide_unpack _). vm_compute. exact I. }
  split_and!.
  - apply readd_graph_built.
  - apply readd_graph_acyclic.
  - eexists. vm_compute. reflexivity.
  - intros pops r w s' [_ Heq]%readd_graph_runs. by simplify_eq.
  - done.
  - vm_compute. reflexivity.
  - intros [_ Hmax]. apply Hmax in Hpath. vm_compute in Hpath. by apply Hpath.
Qed.

Lemma longest_path_route_valid_witness :
  [1; 2; 3]%nat ≠ [] ∧ (∀ a, a ∈ [1; 2; 3]%nat → is_node relink_graph a) ∧
  (∀ (i : nat) a b, [1; 2; 3]%nat !! i = Some a → [1; 2; 3]%nat !! S i = Some b →
     b ∈ succs relink_graph a) ∧
  Some 7 = Some (path_weight relink_graph [1; 2; 3]%nat).
Proof.
  destruct relink_run_chain as [s' Hrun].
  exact (longest_path_route_valid relink_calls relink_graph _ _ _ s'
           relink_graph_built Hrun).
Defined.

Lemma longest_path_consumes_edges_witness :
  unseen_sources edge_graph_done = ∅ ∧
  (∀ a, succs edge_graph_done a = ∅) ∧ (∀ a, preds edge_graph_done a = ∅) ∧
  nodes edge_graph_done = nodes edge_graph ∧
  (Some [1; 2]%nat, Some 3)
  = (longest_route edge_graph_done, longest_route_weight edge_graph_done) ∧
  longest_path [] edge_graph_done
  = Ret (Some [1; 2]%nat, Some 3) edge_graph_done ∧
  (∀ pops2 res2 s2,
     longest_path pops2 edge_graph_done = Ret res2 s2 →
     pops2 = [] ∧ res2 = (Some [1; 2]%nat, Some 3) ∧ s2 = edge_graph_done).
Proof.
  exact (longest_path_consumes_edges edge_calls edge_graph _ _ _ edge_graph_built
           edge_graph_synchronized edge_graph_acyclic edge_graph_run).
Defined.

(** C3 as stated fails: after the first call on the one-edge graph the node
    store and the best-path table are not empty, and every further call
    returns the route [1; 2] and the weight 3 again, not (none, none). *)
Lemma second_call_counterexample :
  build edge_calls = Ret tt edge_graph ∧
  synchronized edge_graph ∧ acyclic edge_graph ∧
  longest_path [1; 2]%nat edge_graph
  = Ret (Some [1; 2]%nat, Some 3) edge_graph_done ∧
  nodes edge_graph_done ≠ ∅ ∧
  longest_in_weight edge_graph_done ≠ ∅ ∧
  longest_path [] edge_graph_done
  = Ret (Some [1; 2]%nat, Some 3) edge_graph_done ∧
  (∀ pops res s2,
     longest_path pops edge_graph_done = Ret res s2 → res ≠ (None, None)).
Proof.
  split_and!.
  - apply edge_graph_built.
  - apply edge_graph_synchronized.
  - apply edge_graph_acyclic.
  - apply edge_graph_run.
  - intros Heq.
    assert (nodes edge_graph_done !! 1%nat = Some 1) as Hl by (vm_compute; reflexivity).
    by rewrite Heq in Hl.
  - intros Heq.
    assert (longest_in_weight edge_graph_done !! 2%nat = Some 1) as Hl
      by (vm_compute; reflexivity).
    by rewrite Heq in Hl.
  - vm_compute. reflexivity.
  - intros pops res s2 Hrun.
    apply longest_path_frontier_empty in Hrun as (_ & _ & ->); [|vm_compute; reflexivity].
    vm_compute. discriminate.
Qed.

Lemma views_synchronized_witness :
  ∃ s1, build (take 8 main_calls) = Ret tt s1 ∧
        synchronized s1 ∧ synchronized main_graph.
Proof.
  apply (views_synchronized (take 8 main_calls) (drop 8 main_calls)).
  - apply (bool_decide_unpack _). vm_compute. exact I.
  - vm_compute. reflexivity.
Defined.

(** C4 as stated fails: adding label 1 again after the edge from 1 to 2
    empties the forward set of 1 but leaves 1 in the reverse set of 2. *)
Lemma readd_breaks_synchronization :
  build readd_calls = Ret tt readd_graph ∧
  2%nat ∉ succs readd_graph 1%nat ∧ 1%nat ∈ preds readd_graph 2%nat ∧
  ¬ synchronized readd_graph.
Proof.
  assert (2%nat ∉ succs readd_graph 1%nat) as Hout.
  { apply (bool_decide_eq_false_1 (2%nat ∈ succs readd_graph 1%nat)).
    vm_compute. reflexivity. }
  assert (1%nat ∈ preds readd_graph 2%nat) as Hin.
  { apply (bool_decide_unpack _). vm_compute. exact I. }
  split_and!; [apply readd_graph_built|done..|].
  intros Hs. by apply Hout, Hs.
Qed.

Lemma add_node_negative_weight_witness :
  add_node 7%nat (-1) main_graph = Raise InvalidWeight main_graph.
Proof. apply add_node_negative_weight. lia. Defined.

Lemma add_edge_unknown_node_witness :
  (nodes edge_graph !! 9%nat = None →
   add_edge 9%nat 2%nat edge_graph = Raise (UnknownNode Source 9%nat) edge_graph) ∧
  (is_Some (nodes edge_graph !! 9%nat) → nodes edge_graph !! 2%nat = None →
   add_edge 9%nat 2%nat edge_graph = Raise (UnknownNode Target 2%nat) edge_graph) ∧
  (is_Some (nodes edge_graph !! 9%nat) → is_Some (nodes edge_graph !! 2%nat) →
   ∃ s', add_edge 9%nat 2%nat edge_graph = Ret tt s').
Proof.
  apply add_edge_unknown_node. apply (build_reachable edge_calls).
  vm_compute. reflexivity.
Defined.

(** An unregistered source, an unregistered target, and both registered. *)
Example add_edge_cases :
  add_edge 9%nat 2%nat edge_graph = Raise (UnknownNode Source 9%nat) edge_graph ∧
  add_edge 9%nat 8%nat edge_graph = Raise (UnknownNode Source 9%nat) edge_graph ∧
  add_edge 2%nat 8%nat edge_graph = Raise (UnknownNode Target 8%nat) edge_graph ∧
  ∃ s', add_edge 2%nat 1%nat edge_graph = Ret tt s'.
Proof. split_and!; [vm_compute; reflexivity..|]. eexists. vm_compute. reflexivity. Qed.

Lemma terminal_updates_best_witness :
  ∃ s', iteration 2%nat tie_state = Ret tt s' ∧
    ((longest_route tie_state = None ∨
      ∃ best, longest_route_weight tie_state = Some best ∧
              best < new_weight_of 2%nat 5 tie_state) →
     longest_route s' = Some (new_route_of 2%nat tie_state) ∧
     longest_route_weight s' = Some (new_weight_of 2%nat 5 tie_state)) ∧
    (∀ r best, longest_route tie_state = Some r →
       longest_route_weight tie_state = Some best →
       new_weight_of 2%nat 5 tie_state ≤ best →
       longest_route s' = Some r ∧ longest_route_weight s' = Some best).
Proof.
  apply (terminal_updates_best 2%nat 5 ∅ tie_state).
  - vm_compute. reflexivity.
  - vm_compute. reflexivity.
  - vm_compute. reflexivity.
  - intros _. exists 5. vm_compute. reflexivity.
Defined.

(** On a tie the terminal node that is finalised first stays the best. *)
Example tie_first_wins :
  ∃ s1 s2 : state nat,
    build [AddNode 1%nat 5; AddNode 2%nat 5] = Ret tt s1 ∧
    (∃ s', longest_path [1; 2]%nat s1 = Ret (Some [1%nat], Some 5) s') ∧
    (∃ s', longest_path [2; 1]%nat s1 = Ret (Some [2%nat], Some 5) s') ∧
    iteration 2%nat tie_state = Ret tt s2 ∧
    longest_route s2 = Some [1%nat] ∧ longest_route_weight s2 = Some 5.
Proof.
  eexists _, _. split_and!; [vm_compute; reflexivity| | |vm_compute; reflexivity..];
    eexists; vm_compute; reflexivity.
Qed.

Lemma longest_path_terminates_witness :
  (∃ pops res s', longest_path pops main_graph = Ret res s') ∧
  (∀ pops e s', iterate pops main_graph ≠ Raise e s') ∧
  (∀ pops s', iterate pops main_graph = Ret tt s' →
     NoDup pops ∧ (length pops ≤ size (dom (nodes main_graph)))%nat ∧
     ∃ pops' res s'', longest_path (pops ++ pops') main_graph = Ret res s'') ∧
  (∀ pops res s', longest_path pops main_graph = Ret res s' →
     pops ≡ₚ elements (dom (nodes main_graph))).
Proof.
  exact (longest_path_terminates main_calls main_graph main_graph_built
           main_graph_synchronized main_graph_acyclic).
Defined.

(** C8 as stated fails: on the acyclic graph built with label 2 added
    twice, a run pops label 2 twice; on the graph with the repeated
    [add_node], the only run never pops the node 2. *)
Lemma relink_pops_twice_or_never :
  build relink_calls = Ret tt relink_graph ∧ acyclic relink_graph ∧
  (∃ r s', longest_path [2; 3; 1; 2]%nat relink_graph = Ret r s') ∧
  ¬ NoDup [2; 3; 1; 2]%nat ∧
  build readd_calls = Ret tt readd_graph ∧ acyclic readd_graph ∧
  is_node readd_graph 2%nat ∧
  (∀ pops r s', longest_path pops readd_graph = Ret r s' → pops = [1%nat]).
Proof.
  split_and!.
  - apply relink_graph_built.
  - apply relink_graph_acyclic.
  - do 2 eexists. vm_compute. reflexivity.
  - intros Hnd. apply NoDup_cons in Hnd as [Hin _]. apply Hin.
    do 2 right. by left.
  - apply readd_graph_built.
  - apply readd_graph_acyclic.
  - unfold is_node. apply (bool_decide_unpack _). vm_compute. exact I.
  - by intros pops r s' [-> _]%readd_graph_runs.
Qed.

(** C9 as stated fails: on the acyclic graph built with label 2 added
    twice, the pop order 1, 2, 3 returns the weight 7 and the pop order
    2, 3, 1, 2 returns the weight 6. *)
Lemma relink_order_dependent :
  build relink_calls = Ret tt relink_graph ∧ acyclic relink_graph ∧
  (∃ s1, longest_path [1; 2; 3]%nat relink_graph
         = Ret (Some [1; 2; 3]%nat, Some 7) s1) ∧
  (∃ s2, longest_path [2; 3; 1; 2]%nat relink_graph
         = Ret (Some [1; 2]%nat, Some 6) s2).
Proof.
  split_and!.
  - apply relink_graph_built.
  - apply relink_graph_acyclic.
  - apply relink_run_chain.
  - apply relink_run_twice.
Qed.

Lemma longest_path_order_independent_witness :
  Some 8 = Some 8 ∧
  (∀ route1 route2, Some [1; 2; 5]%nat = Some route1 →
     Some [3; 5]%nat = Some route2 →
     path main_graph route1 ∧ path main_graph route2 ∧
     path_weight main_graph route1 = path_weight main_graph route2).
Proof.
  destruct main_run_ascending as [s1 Hrun1].
  destruct main_run_descending as [s2 Hrun2].
  exact (longest_path_order_independent main_calls main_graph _ _ _ _ s1 _ _ s2
           main_graph_built main_graph_synchronized main_graph_acyclic Hrun1 Hrun2).
Defined.

Lemma longest_path_keeps_nodes_witness :
  nodes edge_graph_done = nodes edge_graph.
Proof.
  apply (longest_path_keeps_nodes [1; 2]%nat). vm_compute. reflexivity.
Defined.

(** * Further properties of the code *)

Section Extras.
Context {L : Type} `{!EqDecision L, !Countable L}.
Implicit Types (s : state L) (a b n : L) (p q : list L) (ts D : gset L).
Local Open Scope Z_scope.

Local Ltac lookups :=
  repeat progress
    (rewrite ?lookup_insert_eq; rewrite ?lookup_insert_ne by done; simpl).

(** X1: on every object that calls of the three public methods can produce
    (labels added twice, cycles and earlier traversals included)
    [longest_path] raises no exception, whatever [pop()] returns, and some
    sequence of pops lets it return. *)
Theorem longest_path_never_raises s :
  reachable s →
  (∀ pops e s', longest_path pops s ≠ Raise e s') ∧
  ∃ pops r s', longest_path pops s = Ret r s'.
Proof.
  intros Hc%reachable_coherent. split.
  - intros pops e s' Hr. unfold longest_path, while_loop in Hr.
    pose proof (coherent_iterate pops s Hc) as Hi.
    destruct (iterate pops s) as [[] s1|e1 s1|]; [|done..].
    by destruct (decide (size (unseen_sources s1) = 0%nat)).
  - destruct (coherent_run_exists (potential s) s Hc) as (pops & s' & Hit & He);
      [done|].
    exists pops, (longest_route s', longest_route_weight s'), s'.
    unfold longest_path, while_loop. rewrite Hit, decide_True; [done|].
    by rewrite He, size_empty.
Qed.

(** X2: on every such object a call of [longest_path] that returns has made
    at most [N * (N + 2)] iterations of its loop, [N] being the number of
    registered labels. *)
Theorem longest_path_iteration_bound s pops r s' :
  reachable s → longest_path pops s = Ret r s' →
  (length pops ≤ size (dom (nodes s)) * (size (dom (nodes s)) + 2))%nat.
Proof.
  intros Hc%reachable_coherent [[Hit _]%while_loop_ret _]%longest_path_ret.
  pose proof (coherent_iterate pops s Hc) as Hi. rewrite Hit in Hi.
  destruct Hi as (_ & Hlen & _).
  destruct Hc as (He & _ & _ & Hu & _).
  assert (size (with_targets s) ≤ size (dom (nodes s)))%nat as Hwt.
  { apply subseteq_size. rewrite <- He. unfold with_targets.
    by intros x [_ ?]%elem_of_filter. }
  apply subseteq_size in Hu. unfold potential in Hlen. nia.
Qed.

(** X3: the best weight stored in the object is never reset and never
    decreases: a call of [longest_path] on an object that already holds a
    best weight returns a weight at least as large, whatever has been added
    to the graph in between. *)
Theorem longest_path_best_never_decreases s pops r w s' best :
  reachable s → longest_route_weight s = Some best →
  longest_path pops s = Ret (r, w) s' →
  ∃ best', w = Some best' ∧ best ≤ best'.
Proof.
  intros Hc%reachable_coherent Hb [[Hit _]%while_loop_ret Heq]%longest_path_ret.
  pose proof (coherent_iterate pops s Hc) as Hi. rewrite Hit in Hi.
  destruct Hi as (_ & _ & Hm). destruct (Hm best Hb) as (b' & Hb' & Hle).
  exists b'. split; [|done]. by simplify_eq.
Qed.

(** X4: a cycle is not detected.  On a synchronized graph built by
    construction calls, a label on a cycle, or reachable from one, is never
    popped, and its outgoing edges are still in the object when
    [longest_path] returns. *)
Theorem cycle_never_finalised (cs : list (call L)) s0 pops r s' c n :
  build cs = Ret tt s0 → synchronized s0 →
  longest_path pops s0 = Ret r s' →
  tc (edge s0) c c → rtc (edge s0) c n →
  (n ∉ pops) ∧ edges s' !! n = edges s0 !! n.
Proof.
  intros Hb Hs [[Hit _]%while_loop_ret _]%longest_path_ret Hcc Hcn.
  pose proof (build_constructed _ _ Hb) as Hc.
  destruct (iterate_inv s0 Hc Hs pops ∅ s0 s' (inv_init s0 Hc Hs) Hit)
    as (HI & _ & _).
  assert (n ∉ list_to_set pops ∪ (∅ : gset L)) as Hn.
  { intros Hn.
    assert (c ∈ list_to_set pops ∪ (∅ : gset L)) as HcD
      by (eapply done_closed; done).
    eapply (iterate_no_cycle s0 Hc Hs pops ∅ s0 s'); [by apply inv_init| |done| |done].
    - intros x Hx. by apply not_elem_of_empty in Hx.
    - apply elem_of_union in HcD as [HcD|HcD]; [by apply elem_of_list_to_set in HcD|].
      by apply not_elem_of_empty in HcD. }
  split.
  - intros Hin. apply Hn, elem_of_union. left. by apply elem_of_list_to_set.
  - by rewrite (inv_edges _ _ _ HI), decide_False.
Qed.

(** X5: adding an edge that is already there changes nothing. *)
Theorem add_edge_idempotent source target s s' :
  add_edge source target s = Ret tt s' → add_edge source target s' = Ret tt s'.
Proof.
  unfold add_edge.
  destruct (nodes s !! source) eqn:E1; [|done].
  destruct (nodes s !! target) eqn:E2; [|done].
  destruct (edges s !! source) as [ts|] eqn:E3; [|done]. simpl.
  destruct (rev_edges s !! target) as [ss|] eqn:E4; [|done].
  intros ?. simplify_eq. simpl. rewrite E1, E2, !lookup_insert_eq. simpl.
  rewrite ?lookup_insert_eq. f_equal. f_equal.
  - rewrite insert_insert_eq. f_equal. set_solver.
  - rewrite insert_insert_eq. f_equal. set_solver.
  - set_solver.
Qed.

(** X6: two calls of [add_edge] can be exchanged: the second succeeds on
    the original object, and the other order ends in the same object. *)
Theorem add_edge_commute a b c d s s1 s2 :
  add_edge a b s = Ret tt s1 → add_edge c d s1 = Ret tt s2 →
  ∃ s1', add_edge c d s = Ret tt s1' ∧ add_edge a b s1' = Ret tt s2.
Proof.
  unfold add_edge.
  destruct (nodes s !! a) eqn:Ea; [|done].
  destruct (nodes s !! b) eqn:Eb; [|done].
  destruct (edges s !! a) as [ta|] eqn:Eta; [|done]. simpl.
  destruct (rev_edges s !! b) as [sb|] eqn:Esb; [|done].
  intros ?. simplify_eq. simpl.
  destruct (nodes s !! c) eqn:Ec; [|done].
  destruct (nodes s !! d) eqn:Ed; [|done].
  destruct (decide (a = c)) as [->|Hac]; destruct (decide (b = d)) as [->|Hbd];
    simplify_eq; lookups.
  - rewrite Eta, Esb. intros ?. simplify_eq. eexists. split; [done|]. simpl.
    rewrite Ea, Eb. by lookups.
  - destruct (rev_edges s !! d) as [sd|] eqn:Esd; [|done]. rewrite Eta.
    intros ?. simplify_eq. eexists. split; [done|]. simpl.
    rewrite Ea, Eb. lookups. rewrite Esb. f_equal. f_equal.
    + rewrite !insert_insert_eq. f_equal. set_solver.
    + by apply insert_insert_ne.
    + set_solver.
  - destruct (edges s !! c) as [tc|] eqn:Etc; [|done]. lookups. rewrite ?Esb.
    intros ?. simplify_eq. eexists. split; [done|]. simpl.
    rewrite Ea, Eb. lookups. rewrite Eta. lookups. f_equal. f_equal.
    + by apply insert_insert_ne.
    + rewrite !insert_insert_eq. f_equal. set_solver.
  - destruct (edges s !! c) as [tc|] eqn:Etc; [|done]. lookups.
    destruct (rev_edges s !! d) as [sd|] eqn:Esd; [|done].
    intros ?. simplify_eq. eexists. split; [done|]. simpl.
    rewrite Ea, Eb. lookups. rewrite Eta. lookups. rewrite Esb.
    f_equal. f_equal.
    + by apply insert_insert_ne.
    + by apply insert_insert_ne.
    + set_solver.
Qed.

(** X7: whatever calls produced the object, no stored weight is negative,
    every edge joins two registered labels, the frontier holds registered
    labels only, and a best route is stored exactly when a best weight
    is. *)
Theorem reachable_well_formed s :
  reachable s →
  (∀ a w, nodes s !! a = Some w → 0 ≤ w) ∧
  (∀ a b, b ∈ succs s a → is_node s a ∧ is_node s b) ∧
  unseen_sources s ⊆ dom (nodes s) ∧
  (is_Some (longest_route s) ↔ is_Some (longest_route_weight s)).
Proof.
  intros (He & Hr & Hs & Hu & Hw & Hb)%reachable_coherent.
  split_and!; [done| |done|done].
  intros a b Hab. split; [|by eapply Hs].
  unfold is_node. rewrite <- He. apply elem_of_dom. unfold succs in Hab.
  destruct (edges s !! a); [done|]. by apply not_elem_of_empty in Hab.
Qed.

(** X8: after any sequence of construction calls, the frontier is the set
    of registered labels whose set of incoming edges is empty. *)
Theorem frontier_after_construction (cs : list (call L)) s a :
  build cs = Ret tt s →
  a ∈ unseen_sources s ↔ is_node s a ∧ preds s a = ∅.
Proof.
  intros Hb. pose proof (build_constructed _ _ Hb) as Hc.
  rewrite (c_frontier _ Hc). unfold is_node, preds.
  rewrite <- (c_rev_dom _ Hc), elem_of_dom. split.
  - intros ->. split; [by eexists|done].
  - intros [[ss Hss] He]. rewrite Hss in He |- *. simpl in He. by rewrite He.
Qed.

(** X9: the route that [longest_path] returns ends at a node that had no
    outgoing edge when the call began. *)
Theorem longest_path_route_ends_at_sink (cs : list (call L)) s0 pops route w s' :
  build cs = Ret tt s0 → synchronized s0 →
  longest_path pops s0 = Ret (Some route, w) s' →
  ∃ a, last route = Some a ∧ succs s0 a = ∅.
Proof.
  intros Hb Hs [[Hit _]%while_loop_ret Heq]%longest_path_ret.
  pose proof (build_constructed _ _ Hb) as Hc.
  eapply (iterate_route_end s0 Hc Hs pops ∅ s0 s');
    [by apply inv_init| |done|by simplify_eq].
  intros r Hr. by rewrite (c_route _ Hc) in Hr.
Qed.

(** X10: on an acyclic graph the returned route visits no label twice. *)
Theorem longest_path_route_simple (cs : list (call L)) s0 pops route w s' :
  build cs = Ret tt s0 → synchronized s0 → acyclic s0 →
  longest_path pops s0 = Ret (Some route, w) s' →
  NoDup route.
Proof.
  intros Hb Hs Ha [[Hit _]%while_loop_ret Heq]%longest_path_ret.
  pose proof (build_constructed _ _ Hb) as Hc.
  destruct (iterate_inv s0 Hc Hs pops ∅ s0 s' (inv_init s0 Hc Hs) Hit)
    as (HI & _ & _).
  pose proof (inv_best _ _ _ HI) as Hbest.
  injection Heq as Hr Hw. rewrite <- Hr in Hbest.
  destruct (longest_route_weight s'); [|done].
  destruct Hbest as [Hp _]. by eapply path_NoDup.
Qed.

(** X11: on a synchronized, acyclic graph built by construction calls,
    [longest_path] returns no weight exactly when the graph has no node,
    and no route exactly when it returns no weight. *)
Theorem longest_path_none_iff_empty (cs : list (call L)) s0 pops r w s' :
  build cs = Ret tt s0 → synchronized s0 → acyclic s0 →
  longest_path pops s0 = Ret (r, w) s' →
  (w = None ↔ nodes s0 = ∅) ∧ (r = None ↔ w = None).
Proof.
  intros Hb Hs Ha [Hrun Heq]%longest_path_ret.
  pose proof (build_constructed _ _ Hb) as Hc.
  destruct (while_loop_inv s0 Hc Hs pops s' Ha Hrun) as (HI & _).
  assert (max_path_weight s0 (longest_route_weight s')) as Hmax
    by (by apply final_max).
  pose proof (inv_best _ _ _ HI) as Hbest.
  injection Heq as -> ->. split.
  - destruct (longest_route_weight s') as [w|]; simpl in Hmax.
    + split; [done|]. intros Hn.
      destruct Hmax as [(p & (Hne & Hin & _) & _) _].
      destruct p as [|a p]; [done|]. exfalso.
      assert (is_node s0 a) as Hnode by (apply Hin; by left).
      unfold is_node in Hnode. rewrite Hn, dom_empty_L in Hnode.
      by apply not_elem_of_empty in Hnode.
    + split; [|done]. intros _. apply map_empty. intros a.
      apply not_elem_of_dom. intros Hnode. by apply (Hmax [a]), path_singleton.
  - destruct (longest_route s'), (longest_route_weight s'); try done.
Qed.

(** X12: when [longest_path] has returned on a synchronized, acyclic graph
    built by construction calls, the table of incoming routes is complete:
    for every node [t], no path that ends at a predecessor of [t] is
    heavier than the weight stored for [t] (0 if none is stored), and a
    stored weight is the weight of the stored route, which is a path of
    the graph ending at a predecessor of [t]. *)
Theorem longest_path_tables (cs : list (call L)) s0 pops r s' t :
  build cs = Ret tt s0 → synchronized s0 → acyclic s0 →
  longest_path pops s0 = Ret r s' →
  (∀ q a, path s0 q → last q = Some a → edge s0 a t →
     path_weight s0 q ≤ default 0 (longest_in_weight s' !! t)) ∧
  (∀ w, longest_in_weight s' !! t = Some w →
     ∃ q a, longest_in_route s' !! t = Some q ∧ path s0 q ∧
            path_weight s0 q = w ∧ last q = Some a ∧ edge s0 a t).
Proof.
  intros Hb Hs Ha [Hrun _]%longest_path_ret.
  pose proof (build_constructed _ _ Hb) as Hc.
  destruct (while_loop_inv s0 Hc Hs pops s' Ha Hrun) as (HI & _). split.
  - intros q a Hq Hl He. eapply (inv_in_max _ _ _ HI); [done..| |done].
    by eapply edge_source_node.
  - intros w Hw. by apply (inv_in_some _ _ _ HI).
Qed.

(** X13: the two loops over a set of targets, the relaxation loop of
    [longest_path] and the loop of [__del_edges_from], give the same
    object in whatever order the set is enumerated (for the second, as
    long as every target has an entry in the reverse view, so that it
    does not raise). *)
Theorem set_loops_order_independent nw nr source (l1 l2 : list L) s :
  l1 ≡ₚ l2 →
  foldl (relax nw nr) s l1 = foldl (relax nw nr) s l2 ∧
  ((∀ t, t ∈ l1 → is_Some (rev_edges s !! t)) →
   for_each (discard_rev source) l1 s = for_each (discard_rev source) l2 s).
Proof.
  intros Hp. split; [by apply foldl_relax_perm|].
  intros Hl. by apply for_each_discard_rev_perm.
Qed.

(** X14: a call of [longest_path] that returns leaves the forward and the
    reverse view synchronized if they were so before the call (cycles and
    earlier traversals included). *)
Theorem longest_path_keeps_synchronized s pops r s' :
  reachable s → synchronized s → longest_path pops s = Ret r s' →
  synchronized s'.
Proof.
  intros Hc%reachable_coherent Hsy [[Hit _]%while_loop_ret _]%longest_path_ret.
  by eapply iterate_synchronized.
Qed.

End Extras.

(** * The further properties on concrete graphs *)

Lemma readd_graph_reachable : reachable readd_graph.
Proof. apply (build_reachable readd_calls), readd_graph_built. Qed.

Lemma main_graph_run :
  longest_path [0; 1; 2; 3; 4; 5]%nat main_graph
  = Ret (Some [1; 2; 5]%nat, Some 8) main_graph_done.
Proof. vm_compute. reflexivity. Qed.

Lemma cycle_graph_built : build cycle_calls = Ret tt cycle_graph.
Proof. vm_compute. reflexivity. Qed.

Lemma cycle_graph_synchronized : synchronized cycle_graph.
Proof.
  eapply build_synchronized; [|apply cycle_graph_built].
  apply (bool_decide_unpack _). vm_compute. exact I.
Qed.

Lemma cycle_graph_cycle : tc (edge cycle_graph) 1%nat 1%nat.
Proof.
  apply (tc_l _ _ 2%nat); [|apply tc_once];
    unfold edge; apply (bool_decide_unpack _); vm_compute; exact I.
Qed.

Lemma cycle_graph_below : rtc (edge cycle_graph) 1%nat 3%nat.
Proof.
  apply (rtc_l _ _ 2%nat); [|apply rtc_once];
    unfold edge; apply (bool_decide_unpack _); vm_compute; exact I.
Qed.

(** The traversal of the graph with a cycle pops the isolated node only and
    returns it, without any error. *)
Lemma cycle_graph_run :
  longest_path [0%nat] cycle_graph = Ret (Some [0%nat], Some 4) cycle_graph_done.
Proof. vm_compute. reflexivity. Qed.

Lemma grown_graph_reachable : reachable grown_graph.
Proof.
  apply (reachable_add_node edge_graph_done 3%nat 1).
  - eapply reachable_longest_path; [|apply edge_graph_run].
    apply (build_reachable edge_calls), edge_graph_built.
  - vm_compute. reflexivity.
Qed.

(** The best route of the earlier traversal is returned again. *)
Example grown_graph_run :
  ∃ s', longest_path [3%nat] grown_graph = Ret (Some [1; 2]%nat, Some 3) s'.
Proof. eexists. vm_compute. reflexivity. Qed.

Lemma longest_path_never_raises_witness :
  (∀ pops e s', longest_path pops readd_graph ≠ Raise e s') ∧
  ∃ pops r s', longest_path pops readd_graph = Ret r s'.
Proof. exact (longest_path_never_raises readd_graph readd_graph_reachable). Defined.

Lemma longest_path_iteration_bound_witness :
  (length [1%nat]
   ≤ size (dom (nodes readd_graph)) * (size (dom (nodes readd_graph)) + 2))%nat.
Proof.
  destruct readd_longest_path as (s' & Hrun & _).
  exact (longest_path_iteration_bound readd_graph _ _ s'
           readd_graph_reachable Hrun).
Defined.

Lemma longest_path_best_never_decreases_witness :
  longest_route_weight grown_graph = Some 3 ∧
  ∃ best', Some 3 = Some best' ∧ 3 ≤ best'.
Proof.
  split; [vm_compute; reflexivity|].
  destruct grown_graph_run as [s' Hrun].
  apply (longest_path_best_never_decreases grown_graph [3%nat]
           (Some [1; 2]%nat) (Some 3) s' 3 grown_graph_reachable);
    [vm_compute; reflexivity|exact Hrun].
Defined.

Lemma cycle_never_finalised_witness :
  (3%nat ∉ [0%nat]) ∧
  edges cycle_graph_done !! 3%nat = edges cycle_graph !! 3%nat.
Proof.
  exact (cycle_never_finalised cycle_calls cycle_graph _ _ _ 1%nat 3%nat
           cycle_graph_built cycle_graph_synchronized cycle_graph_run
           cycle_graph_cycle cycle_graph_below).
Defined.

Lemma add_edge_idempotent_witness :
  add_edge 1%nat 2%nat edge_graph = Ret tt edge_graph.
Proof.
  apply (add_edge_idempotent 1%nat 2%nat edge_nodes edge_graph).
  vm_compute. reflexivity.
Defined.

Lemma add_edge_commute_witness :
  ∃ s1', add_edge 2%nat 5%nat main_nodes = Ret tt s1' ∧
         add_edge 3%nat 5%nat s1' = Ret tt main_two_edges.
Proof.
  apply (add_edge_commute 3%nat 5%nat 2%nat 5%nat main_nodes
           (match add_edge 3%nat 5%nat main_nodes with
            | Ret _ s => s
            | _ => init
            end));
    vm_compute; reflexivity.
Defined.

Lemma reachable_well_formed_witness :
  (∀ a w, nodes readd_graph !! a = Some w → 0 ≤ w) ∧
  (∀ a b, b ∈ succs readd_graph a →
          is_node readd_graph a ∧ is_node readd_graph b) ∧
  unseen_sources readd_graph ⊆ dom (nodes readd_graph) ∧
  (is_Some (longest_route readd_graph)
   ↔ is_Some (longest_route_weight readd_graph)).
Proof. exact (reachable_well_formed readd_graph readd_graph_reachable). Defined.

Lemma frontier_after_construction_witness :
  0%nat ∈ unseen_sources main_graph
  ↔ is_node main_graph 0%nat ∧ preds main_graph 0%nat = ∅.
Proof.
  exact (frontier_after_construction main_calls main_graph 0%nat
           main_graph_built).
Defined.

Lemma longest_path_route_ends_at_sink_witness :
  ∃ a, last [1; 2; 5]%nat = Some a ∧ succs main_graph a = ∅.
Proof.
  exact (longest_path_route_ends_at_sink main_calls main_graph _ _ _ _
           main_graph_built main_graph_synchronized main_graph_run).
Defined.

Lemma longest_path_route_simple_witness : NoDup [1; 2; 5]%nat.
Proof.
  exact (longest_path_route_simple main_calls main_graph _ _ _ _
           main_graph_built main_graph_synchronized main_graph_acyclic
           main_graph_run).
Defined.

Lemma longest_path_none_iff_empty_witness :
  (Some 8 = None ↔ nodes main_graph = ∅) ∧
  (Some [1; 2; 5]%nat = None ↔ Some 8 = None).
Proof.
  exact (longest_path_none_iff_empty main_calls main_graph _ _ _ _
           main_graph_built main_graph_synchronized main_graph_acyclic
           main_graph_run).
Defined.

Lemma longest_path_tables_witness :
  (∀ q a, path main_graph q → last q = Some a → edge main_graph a 5%nat →
     path_weight main_graph q
     ≤ default 0 (longest_in_weight main_graph_done !! 5%nat)) ∧
  (∀ w, longest_in_weight main_graph_done !! 5%nat = Some w →
     ∃ q a, longest_in_route main_graph_done !! 5%nat = Some q ∧
            path main_graph q ∧ path_weight main_graph q = w ∧
            last q = Some a ∧ edge main_graph a 5%nat).
Proof.
  exact (longest_path_tables main_calls main_graph _ _ _ 5%nat
           main_graph_built main_graph_synchronized main_graph_acyclic
           main_graph_run).
Defined.

Lemma set_loops_order_independent_witness :
  foldl (relax 3 [1; 2]%nat) main_graph [4; 5]%nat
  = foldl (relax 3 [1; 2]%nat) main_graph [5; 4]%nat ∧
  ((∀ t, t ∈ [4; 5]%nat → is_Some (rev_edges main_graph !! t)) →
   for_each (discard_rev 2%nat) [4; 5]%nat main_graph
   = for_each (discard_rev 2%nat) [5; 4]%nat main_graph).
Proof. apply set_loops_order_independent. apply perm_swap. Defined.

Lemma longest_path_keeps_synchronized_witness : synchronized cycle_graph_done.
Proof.
  apply (longest_path_keeps_synchronized cycle_graph [0%nat]
           (Some [0%nat], Some 4)).
  - apply (build_reachable cycle_calls), cycle_graph_built.
  - apply cycle_graph_synchronized.
  - apply cycle_graph_run.
Defined.
